(** * transcribe.py: a shallow embedding and its specification

    The program is a command-line front end for a speech model: it checks the
    interpreter version, parses its arguments with [argparse], resolves the
    input path, loads the model, transcribes, writes the text next to the
    input (or where [-o] says) and prints a preview.

    Modelling conventions.
    - A Python [str] is a list of Unicode code points ([pystr]); [len] is
      [length] and slicing is [firstn]/[skipn].
    - [pathlib] paths are the POSIX flavour of CPython 3.11 (the program
      refuses to run on 3.12 and later): a root (none, one slash or two) and
      the list of components.
    - The process runs with UTF-8 as the encoding of file names (with the
      surrogateescape handler, as CPython sets it up) and of standard
      output; the error handler of standard output belongs to the machine.
    - The file system is a tree of directories and regular files. It has no
      hard or symbolic links: two paths never name one file, and
      [Path.resolve] is the lexical normalisation of the path against the
      working directory. Beyond the tree, the operating system may refuse a
      step of a path lookup, or the opening of a file, for reasons of its
      own (permissions, limits on names, a read-only device): what it
      refuses belongs to the machine. A full disk and signals are left out.
    - The model library is a parameter of the machine. Its calls return or
      raise; what the library keeps in a cache of its own is not part of
      the file system described here.
    - [main] runs in a state-and-exit monad over the file system and a trace
      of the effects performed, in program order. *)

From Stdlib Require Import String Ascii.
From Stdlib Require Import List NArith Bool Arith Lia.
Import ListNotations.

Set Implicit Arguments.

(** ** Python strings *)

Definition pystr := list N.

(** An ASCII literal as a Python string. *)
Definition u (s : string) : pystr :=
  map N_of_ascii (list_ascii_of_string s).

Fixpoint str_eqb (a b : pystr) : bool :=
  match a, b with
  | [], [] => true
  | x :: a', y :: b' => N.eqb x y && str_eqb a' b'
  | _, _ => false
  end.

Definition SLASH : N := 47.
Definition DOT : N := 46.
Definition TILDE : N := 126.
Definition DASH : N := 45.
Definition EQUALS : N := 61.
Definition SPACE : N := 32.

(** [s.startswith(p)] *)
Fixpoint startswith (s p : pystr) : bool :=
  match p, s with
  | [], _ => true
  | y :: p', x :: s' => N.eqb x y && startswith s' p'
  | _ :: _, [] => false
  end.

(** [c in s] for a one-character [c] *)
Definition contains_char (c : N) (s : pystr) : bool :=
  existsb (N.eqb c) s.

(** [s.split(c)]: always at least one piece. *)
Fixpoint split_on (c : N) (s : pystr) : list pystr :=
  match s with
  | [] => [[]]
  | x :: s' =>
      if N.eqb x c then [] :: split_on c s'
      else match split_on c s' with
           | [] => [[x]]
           | w :: ws => (x :: w) :: ws
           end
  end.

(** [sep.join(l)] *)
Fixpoint join (sep : pystr) (l : list pystr) : pystr :=
  match l with
  | [] => []
  | [x] => x
  | x :: rest => x ++ sep ++ join sep rest
  end.

(** [s.lstrip(c)] and [s.rstrip(c)] for a one-character [c] *)
Fixpoint lstrip_char (c : N) (s : pystr) : pystr :=
  match s with
  | x :: s' => if N.eqb x c then lstrip_char c s' else s
  | [] => []
  end.

Definition rstrip_char (c : N) (s : pystr) : pystr :=
  rev (lstrip_char c (rev s)).

(** [s.rfind(c)]: the index of the last occurrence, if any. *)
Fixpoint rfind (c : N) (s : pystr) : option nat :=
  match s with
  | [] => None
  | x :: s' =>
      match rfind c s' with
      | Some i => Some (S i)
      | None => if N.eqb x c then Some 0 else None
      end
  end.

(** Whitespace as [str.isspace] decides it for one code point. *)
Definition isspace (c : N) : bool :=
  ((9 <=? c) && (c <=? 13) || (28 <=? c) && (c <=? 32)
   || (c =? 133) || (c =? 160) || (c =? 5760)
   || (8192 <=? c) && (c <=? 8202)
   || (c =? 8232) || (c =? 8233) || (c =? 8239) || (c =? 8287)
   || (c =? 12288))%N.

Fixpoint lstrip (s : pystr) : pystr :=
  match s with
  | x :: s' => if isspace x then lstrip s' else s
  | [] => []
  end.

(** [s.strip()] *)
Definition strip (s : pystr) : pystr :=
  rev (lstrip (rev (lstrip s))).


(** ** Values of the namespace

    An option of the parser stores the string it is given. When that string
    is attached to the option and is a double dash, argparse drops it and
    stores the empty list instead. *)

Inductive value := Str (s : pystr) | EmptyList.

(** [str(v)], as an f-string formats [v]. *)
Definition format_value (v : value) : pystr :=
  match v with
  | Str s => s
  | EmptyList => u "[]"
  end.

(** ** Encodings *)

Definition bytes := list N.

(** UTF-8, as the codec produces it; a surrogate cannot be encoded. *)
Definition utf8_char (c : N) : option bytes :=
  (if c <? 128 then Some [c]
   else if c <? 2048 then Some [192 + c / 64; 128 + c mod 64]
   else if c <? 65536 then
     if (55296 <=? c) && (c <=? 57343) then None
     else Some [224 + c / 4096; 128 + (c / 64) mod 64; 128 + c mod 64]
   else if c <? 1114112 then
     Some [240 + c / 262144; 128 + (c / 4096) mod 64;
           128 + (c / 64) mod 64; 128 + c mod 64]
   else None)%N.

Fixpoint utf8_encode (s : pystr) : option bytes :=
  match s with
  | [] => Some []
  | c :: s' =>
      match utf8_char c, utf8_encode s' with
      | Some b, Some bs => Some (b ++ bs)
      | _, _ => None
      end
  end.

(** The surrogates U+DC80 to U+DCFF, which the surrogateescape handler
    turns back into the bytes 0x80 to 0xFF. *)
Definition escaped_byte (c : N) : bool :=
  ((56448 <=? c) && (c <=? 56575))%N.

(** [os.fsencode]: UTF-8 with surrogateescape. *)
Definition fs_char (c : N) : option bytes :=
  if escaped_byte c then Some [(c - 56320)%N] else utf8_char c.

Fixpoint fsencode (s : pystr) : option bytes :=
  match s with
  | [] => Some []
  | c :: s' =>
      match fs_char c, fsencode s' with
      | Some b, Some bs => Some (b ++ bs)
      | _, _ => None
      end
  end.

(** The error handler of a text stream. *)
Inductive error_handler := Strict | SurrogateEscape | Replacing.

(** Whether a UTF-8 stream with the handler [h] can be sent [c]. *)
Definition stream_accepts (h : error_handler) (c : N) : bool :=
  match utf8_char c with
  | Some _ => true
  | None =>
      match h with
      | Strict => false
      | SurrogateEscape => escaped_byte c
      | Replacing => true
      end
  end.

(** ** pathlib, POSIX flavour *)

Inductive root_kind := NoRoot | OneSlash | TwoSlashes.

Record Path := mkPath { p_root : root_kind; p_parts : list pystr }.

Definition root_eqb (a b : root_kind) : bool :=
  match a, b with
  | NoRoot, NoRoot | OneSlash, OneSlash | TwoSlashes, TwoSlashes => true
  | _, _ => false
  end.

Fixpoint parts_eqb (a b : list pystr) : bool :=
  match a, b with
  | [], [] => true
  | x :: a', y :: b' => str_eqb x y && parts_eqb a' b'
  | _, _ => false
  end.

Definition path_eqb (p q : Path) : bool :=
  root_eqb (p_root p) (p_root q) && parts_eqb (p_parts p) (p_parts q).

Definition root_str (r : root_kind) : pystr :=
  match r with
  | NoRoot => []
  | OneSlash => [SLASH]
  | TwoSlashes => [SLASH; SLASH]
  end.

Definition is_absolute (p : Path) : bool :=
  negb (root_eqb (p_root p) NoRoot).

(** [_PosixFlavour.splitroot] *)
Definition splitroot (part : pystr) : root_kind * pystr :=
  match part with
  | x :: _ =>
      if N.eqb x SLASH then
        let stripped := lstrip_char SLASH part in
        if Nat.eqb (length part - length stripped) 2
        then (TwoSlashes, stripped)
        else (OneSlash, stripped)
      else (NoRoot, part)
  | [] => (NoRoot, part)
  end.

(** The components of one part: the pieces between slashes that are
    neither empty nor a single dot. *)
Definition components (rel : pystr) : list pystr :=
  filter (fun x => negb (str_eqb x []) && negb (str_eqb x [DOT]))
         (split_on SLASH rel).

(** [_Flavour.parse_parts]: the parts are read from the last one backwards
    and reading stops at the first one that has a root. *)
Fixpoint parse_parts (parts : list pystr) : Path :=
  match parts with
  | [] => mkPath NoRoot []
  | part :: rest =>
      let later := parse_parts rest in
      if is_absolute later then later
      else
        let '(r, rel) := splitroot part in
        mkPath r (components rel ++ p_parts later)
  end.

(** [Path(s)] *)
Definition Path_of (s : pystr) : Path := parse_parts [s].

(** [str(p)] *)
Definition path_str (p : Path) : pystr :=
  match root_str (p_root p) ++ join [SLASH] (p_parts p) with
  | [] => [DOT]
  | s => s
  end.

(** [p.name] *)
Definition name (p : Path) : pystr := last (p_parts p) [].

(** [p.stem] *)
Definition stem (p : Path) : pystr :=
  let n := name p in
  match rfind DOT n with
  | Some i => if (0 <? i) && (i <? length n - 1) then firstn i n else n
  | None => n
  end.

(** [p.parent] *)
Definition parent (p : Path) : Path :=
  mkPath (p_root p) (removelast (p_parts p)).


(** The error numbers of the system calls the program makes. The errors of
    symbolic links and of file descriptors do not arise. *)
Inductive errno :=
| ENOENT | ENOTDIR | EISDIR | EACCES | EPERM | ENAMETOOLONG | EROFS | EIO.

(** The exceptions the program can let escape. *)
Inductive exn :=
| EmptyName (p : Path)            (* ValueError: p has an empty name *)
| InvalidName (n : pystr)         (* ValueError: Invalid name n *)
| NoHomeDirectory                 (* RuntimeError from expanduser *)
| EmbeddedNull                    (* ValueError: embedded null byte *)
| UnicodeEncodeError
| OSError (no : errno) (p : Path) (* OSError and its subclasses *)
| ModelFailure (what : pystr).    (* whatever the model library raises *)

(** The subclasses of OSError that Python picks from the error number. *)
Definition FileNotFoundError (p : Path) : exn := OSError ENOENT p.
Definition NotADirectoryError (p : Path) : exn := OSError ENOTDIR p.
Definition IsADirectoryError (p : Path) : exn := OSError EISDIR p.
Definition PermissionError (p : Path) : exn := OSError EACCES p.

(** What the conversion of a path for a system call raises: the string is
    encoded first, then looked through for a null character. *)
Definition fspath_error (s : pystr) : option exn :=
  match fsencode s with
  | None => Some UnicodeEncodeError
  | Some _ => if existsb (N.eqb 0) s then Some EmbeddedNull else None
  end.

Fixpoint first_error (l : list pystr) : option exn :=
  match l with
  | [] => None
  | c :: l' =>
      match fspath_error c with
      | Some ex => Some ex
      | None => first_error l'
      end
  end.

Definition valid_name (n : pystr) : bool :=
  let parsed := parse_parts [n] in
  negb (str_eqb n []) && negb (N.eqb (last n 0%N) SLASH)
  && root_eqb (p_root parsed) NoRoot
  && Nat.eqb (length (p_parts parsed)) 1.

(** [p.with_name(n)] *)
Definition with_name (p : Path) (n : pystr) : exn + Path :=
  if str_eqb (name p) [] then inl (EmptyName p)
  else if negb (valid_name n) then inl (InvalidName n)
  else inr (mkPath (p_root p) (removelast (p_parts p) ++ [n])).


(** ** The process environment *)

Inductive node := Dir | File (content : bytes).

(** The file system: what is found at an absolute, normalised path. *)
Definition filesystem := Path -> option node.

(** What the operating system is asked when a path is handed to it: to
    take the path as a whole, to look a path up in its parent directory, to
    open a file for writing. *)
Inductive os_step :=
| WholePath (p : Path)
| Lookup (q : Path)
| OpenForWriting (p : Path).

(** [whisper]'s model object: [transcribe] gets the file found at the path
    it is given, the path, the task, the language hint and the fp16 flag,
    and returns the "text" entry of its result or raises. *)
Record Model := mkModel {
  transcribe :
    option node -> pystr -> value -> option value -> bool -> exn + pystr
}.

Record Env := mkEnv {
  version_info : nat * nat;             (* sys.version_info, major and minor *)
  sys_argv : list pystr;                (* sys.argv[1:] *)
  cwd : list pystr;                     (* os.getcwd(), its components *)
  environ_HOME : option pystr;          (* os.environ.get("HOME") *)
  pwd_current : option pystr;           (* pwd.getpwuid(os.getuid()).pw_dir *)
  pwd_user : pystr -> option pystr;     (* pwd.getpwnam(name).pw_dir *)
  unicode_decimal : N -> bool;          (* the code points re's \d matches *)
  which : pystr -> option pystr;        (* shutil.which *)
  whisper_importable : bool;            (* import whisper succeeds *)
  load_model : value -> exn + Model;    (* whisper.load_model *)
  os_refuses : os_step -> option errno; (* what the system does not allow *)
  stdout_errors : error_handler         (* sys.stdout.errors *)
}.

(** [os.path.expanduser] on one component that starts with a tilde. The
    user name is handed to [pwd.getpwnam], which converts it as a path is
    converted. *)
Definition os_expanduser (e : Env) (first : pystr) : exn + pystr :=
  let expanded (userhome : option pystr) :=
    match userhome with
    | None => first
    | Some h => match rstrip_char SLASH h with
                | [] => [SLASH]
                | h' => h'
                end
    end in
  match tl first with
  | [] => inr (expanded (match environ_HOME e with
                         | Some h => Some h
                         | None => pwd_current e
                         end))
  | user =>
      match fspath_error user with
      | Some ex => inl ex
      | None => inr (expanded (pwd_user e user))
      end
  end.

(** [p.expanduser()] *)
Definition expanduser (e : Env) (p : Path) : exn + Path :=
  match p_root p, p_parts p with
  | NoRoot, first :: rest =>
      if startswith first [TILDE] then
        match os_expanduser e first with
        | inl ex => inl ex
        | inr homedir =>
            if startswith homedir [TILDE] then inl NoHomeDirectory
            else inr (parse_parts (homedir :: rest))
        end
      else inr p
  | _, _ => inr p
  end.

(** [os.path.normpath] on components; [acc] is the prefix built so far,
    innermost component first. Two dots at the root stay at the root. *)
Fixpoint normpath (acc : list pystr) (l : list pystr) : list pystr :=
  match l with
  | [] => rev acc
  | x :: l' =>
      if str_eqb x [DOT; DOT] then normpath (tl acc) l'
      else normpath (x :: acc) l'
  end.

(** [p.resolve()]: [os.path.realpath] where nothing is a symbolic link
    calls [lstat] on the path up to each component in turn, which raises
    when the component cannot be converted, and makes the path absolute
    and normal; then [resolve] calls [stat] on the result and lets pass
    the errors of the operating system, not those of the conversion. *)
Definition resolve (e : Env) (p : Path) : exn + Path :=
  match first_error (p_parts p) with
  | Some ex => inl ex
  | None =>
      let q := mkPath OneSlash
                 (normpath [] ((if is_absolute p then [] else cwd e)
                               ++ p_parts p)) in
      match fspath_error (path_str q) with
      | Some ex => inl ex
      | None => inr q
      end
  end.

Definition bind_exn {A B} (x : exn + A) (f : A -> exn + B) : exn + B :=
  match x with
  | inl err => inl err
  | inr a => f a
  end.

(** [Path(s).expanduser().resolve()], the expression of lines 73 and 90. *)
Definition resolved_path_of (e : Env) (s : pystr) : exn + Path :=
  bind_exn (expanduser e (Path_of s)) (resolve e).

(** The walk of a path lookup from the root: [done] is the prefix reached
    and [todo] what is left of the path. The system must allow each step,
    and each prefix on the way must be a directory. *)
Fixpoint lookup (refuses : os_step -> option errno) (f : filesystem)
    (r : root_kind) (done todo : list pystr) {struct todo} : errno + node :=
  match refuses (Lookup (mkPath r done)) with
  | Some no => inl no
  | None =>
      match f (mkPath r done) with
      | None => inl ENOENT
      | Some n =>
          match todo with
          | [] => inr n
          | c :: todo' =>
              match n with
              | Dir => lookup refuses f r (done ++ [c]) todo'
              | File _ => inl ENOTDIR
              end
          end
      end
  end.

(** [os.stat(p)] *)
Definition os_stat (e : Env) (f : filesystem) (p : Path) : exn + node :=
  match fspath_error (path_str p) with
  | Some ex => inl ex
  | None =>
      match os_refuses e (WholePath p) with
      | Some no => inl (OSError no p)
      | None =>
          match lookup (os_refuses e) f (p_root p) [] (p_parts p) with
          | inl no => inl (OSError no p)
          | inr n => inr n
          end
      end
  end.

(** [pathlib._ignore_error]: the error numbers that mean "not there". *)
Definition ignore_error (no : errno) : bool :=
  match no with
  | ENOENT | ENOTDIR => true
  | _ => false
  end.

(** [p.exists()] as a value: the errors of [stat] that mean "not there",
    and those of the conversion, give [False]; the others are raised. *)
Definition exists_result (e : Env) (f : filesystem) (p : Path)
  : exn + bool :=
  match os_stat e f p with
  | inr _ => inr true
  | inl (OSError no q) =>
      if ignore_error no then inr false else inl (OSError no q)
  | inl _ => inr false
  end.

(** [open(p, "w")]: the parent must be a directory that can be reached;
    the file, if it is there, must not be a directory. *)
Definition os_open (e : Env) (f : filesystem) (p : Path) : exn + unit :=
  match fspath_error (path_str p) with
  | Some ex => inl ex
  | None =>
      match os_refuses e (WholePath p) with
      | Some no => inl (OSError no p)
      | None =>
          match lookup (os_refuses e) f (p_root p) [] (removelast (p_parts p)) with
          | inl no => inl (OSError no p)
          | inr (File _) => inl (OSError ENOTDIR p)
          | inr Dir =>
              match os_refuses e (Lookup p) with
              | Some no => inl (OSError no p)
              | None =>
                  match f p with
                  | Some Dir => inl (OSError EISDIR p)
                  | _ =>
                      match os_refuses e (OpenForWriting p) with
                      | Some no => inl (OSError no p)
                      | None => inr tt
                      end
                  end
              end
          end
      end
  end.

(** ** resolve_output_path (transcribe.py, lines 70-76)

    [if provided:] is false for [None], for the empty string and for the
    empty list. *)

Definition resolve_output_path (e : Env) (input_path : Path)
    (provided : option value) (task : value) : exn + Path :=
  match provided with
  | Some (Str (c :: s)) => resolved_path_of e (c :: s)
  | _ =>
      with_name input_path
        (stem input_path ++ u "_" ++ format_value task ++ u ".txt")
  end.

(** ** parse_args (transcribe.py, lines 38-67)

    The parser built by [parse_args] has the help flag argparse adds, four
    options that store one string each, and one required positional. What
    follows is [ArgumentParser.parse_args] of CPython 3.11 specialised to
    that parser. *)

Inductive store_action := SModel | SOutput | SLanguage | STask.

Inductive action := Help | Store (a : store_action).

(** [parser._option_string_actions], in insertion order. *)
Definition option_string_actions : list (pystr * action) :=
  [ (u "-h", Help); (u "--help", Help);
    (u "-m", Store SModel); (u "--model", Store SModel);
    (u "-o", Store SOutput); (u "--output", Store SOutput);
    (u "--language", Store SLanguage);
    (u "--task", Store STask) ].

Definition task_choices : list pystr := [u "transcribe"; u "translate"].

Fixpoint lookup_option_in (l : list (pystr * action)) (s : pystr)
  : option action :=
  match l with
  | [] => None
  | (o, a) :: l' => if str_eqb o s then Some a else lookup_option_in l' s
  end.

Definition lookup_option : pystr -> option action :=
  lookup_option_in option_string_actions.


Record Namespace := mkNamespace {
  ns_input : pystr;
  ns_model : value;
  ns_output : option value;
  ns_language : option value;
  ns_task : value
}.


Inductive argument_error :=
| ExpectedOneArgument
| IgnoredExplicitArgument (explicit_arg : pystr)
| InvalidChoice (value : pystr) (choices : list pystr).

(** What [parser.error] is called with. *)
Inductive usage_error :=
| AmbiguousOption (arg : pystr) (matches : list pystr)
| ArgumentError (a : action) (what : argument_error)
| RequiredArguments (names : list pystr)
| UnrecognizedArguments (extras : list pystr).

(** The two ways the parser ends the process: [print_help] and exit status
    0, or the usage line and the error on stderr and exit status 2. *)
Inductive parse_exit :=
| HelpExit
| UsageError (err : usage_error).

Definition parse_exit_status (x : parse_exit) : nat :=
  match x with
  | HelpExit => 0
  | UsageError _ => 2
  end.

(** [s.split('=', 1)] when the separator occurs in [s]. *)
Fixpoint split1 (c : N) (s : pystr) : pystr * pystr :=
  match s with
  | [] => ([], [])
  | x :: s' =>
      if N.eqb x c then ([], s')
      else let '(a, b) := split1 c s' in (x :: a, b)
  end.

(** [parser._negative_number_matcher]: a dash, then digits, or digits, a
    dot and digits; [$] also matches before a final newline. *)
Definition all_decimal (dec : N -> bool) (s : pystr) : bool :=
  negb (str_eqb s []) && forallb (dec) s.

Definition drop_final_newline (s : pystr) : pystr :=
  match rev s with
  | 10%N :: r => rev r
  | _ => s
  end.

Fixpoint span_decimal (dec : N -> bool) (s : pystr) : pystr * pystr :=
  match s with
  | x :: s' =>
      if dec x
      then let '(a, b) := span_decimal dec s' in (x :: a, b)
      else ([], s)
  | [] => ([], [])
  end.

Definition number_body (dec : N -> bool) (s : pystr) : bool :=
  all_decimal dec s
  || match snd (span_decimal dec s) with
     | x :: frac => N.eqb x DOT && all_decimal dec frac
     | [] => false
     end.

Definition negative_number (dec : N -> bool) (s : pystr) : bool :=
  match s with
  | x :: body =>
      N.eqb x DASH
      && (number_body dec body || number_body dec (drop_final_newline body))
  | [] => false
  end.

Definition option_tuple : Type := option action * pystr * option pystr.

(** [parser._get_option_tuples], for an argument of at least two characters
    that starts with a dash. *)
Definition get_option_tuples (arg : pystr) : list option_tuple :=
  match arg with
  | _ :: c :: rest =>
      if N.eqb c DASH then
        let '(prefix, explicit) :=
          if contains_char EQUALS arg
          then let '(a, b) := split1 EQUALS arg in (a, Some b)
          else (arg, None) in
        flat_map (fun '(o, a) =>
                    if startswith o prefix then [(Some a, o, explicit)]
                    else [])
                 option_string_actions
      else
        let short_prefix := firstn 2 arg in
        flat_map (fun '(o, a) =>
                    if str_eqb o short_prefix then [(Some a, o, Some rest)]
                    else if startswith o arg then [(Some a, o, None)]
                    else [])
                 option_string_actions
  | _ => []
  end.

(** [parser._parse_optional]: [None] for a positional. *)
Definition parse_optional (dec : N -> bool) (arg : pystr)
  : usage_error + option option_tuple :=
  match arg with
  | [] => inr None
  | c :: tail =>
      if negb (N.eqb c DASH) then inr None
      else
        match lookup_option arg with
        | Some a => inr (Some (Some a, arg, None))
        | None =>
            match tail with
            | [] => inr None
            | _ =>
                let by_equals :=
                  if contains_char EQUALS arg then
                    let '(o, x) := split1 EQUALS arg in
                    match lookup_option o with
                    | Some a => Some (Some a, o, Some x)
                    | None => None
                    end
                  else None in
                match by_equals with
                | Some t => inr (Some t)
                | None =>
                    match get_option_tuples arg with
                    | (_ :: _ :: _) as ts =>
                        inl (AmbiguousOption arg
                               (map (fun t => snd (fst t)) ts))
                    | [t] => inr (Some t)
                    | [] =>
                        if negative_number dec arg then inr None
                        else if contains_char SPACE arg then inr None
                        else inr (Some (None, arg, None))
                    end
                end
            end
        end
  end.

(** One argument string after the first pass of [_parse_known_args]: an
    ['A'], the first double dash (['-']), or an ['O'] with its option tuple
    and the string it came from. *)
Inductive token :=
| TArg (s : pystr)
| TDashDash
| TOpt (a : option action) (option_string : pystr)
       (explicit_arg : option pystr) (arg_string : pystr).

Fixpoint classify (dec : N -> bool) (args : list pystr)
  : usage_error + list token :=
  match args with
  | [] => inr []
  | a :: rest =>
      if str_eqb a [DASH; DASH] then inr (TDashDash :: map TArg rest)
      else
        match parse_optional dec a with
        | inl err => inl err
        | inr t =>
            match classify dec rest with
            | inl err => inl err
            | inr ts =>
                inr (match t with
                     | None => TArg a
                     | Some (act, o, x) => TOpt act o x a
                     end :: ts)
            end
        end
  end.


(** The namespace while it is filled, and the extras collected so far. *)
Record pstate := mkPstate {
  st_input : option pystr;
  st_model : value;
  st_output : option value;
  st_language : option value;
  st_task : value;
  st_extras : list pystr
}.

Definition initial_pstate : pstate :=
  mkPstate None (Str (u "small")) None None (Str (u "transcribe")) [].

Definition add_extra (s : pystr) (st : pstate) : pstate :=
  mkPstate (st_input st) (st_model st) (st_output st) (st_language st)
           (st_task st) (st_extras st ++ [s]).

Definition set_input (s : pystr) (st : pstate) : pstate :=
  mkPstate (Some s) (st_model st) (st_output st) (st_language st)
           (st_task st) (st_extras st).

(** [parser._get_values] for the one argument string of a store action: a
    double dash is removed from the list of argument strings first, and
    when that leaves the list empty the value is the list, which is not
    checked against the choices; otherwise the value is the string. *)
Definition get_values (a : store_action) (v : pystr)
  : parse_exit + value :=
  if str_eqb v [DASH; DASH] then inr EmptyList
  else
    match a with
    | STask =>
        if existsb (str_eqb v) task_choices then inr (Str v)
        else
          inl (UsageError
                 (ArgumentError (Store STask) (InvalidChoice v task_choices)))
    | _ => inr (Str v)
    end.

(** The store action: [setattr(namespace, dest, values)]. *)
Definition store (a : store_action) (val : value) (st : pstate) : pstate :=
  match a with
  | SModel =>
      mkPstate (st_input st) val (st_output st) (st_language st)
               (st_task st) (st_extras st)
  | SOutput =>
      mkPstate (st_input st) (st_model st) (Some val) (st_language st)
               (st_task st) (st_extras st)
  | SLanguage =>
      mkPstate (st_input st) (st_model st) (st_output st) (Some val)
               (st_task st) (st_extras st)
  | STask =>
      mkPstate (st_input st) (st_model st) (st_output st) (st_language st)
               val (st_extras st)
  end.

(** [take_action] for a store action. *)
Definition take_store (a : store_action) (v : pystr) (st : pstate)
  : parse_exit + pstate :=
  match get_values a v with
  | inl ex => inl ex
  | inr val => inr (store a val st)
  end.


(** [consume_optional] once [-h] has been seen with more characters
    attached: each character is looked up as a single-dash option. Help is
    the first action of the cluster, so the process exits in any case. *)
Fixpoint help_cluster (explicit_arg : pystr) (next_is_arg : bool)
  : parse_exit :=
  match explicit_arg with
  | [] => HelpExit
  | c :: rest =>
      match lookup_option [DASH; c] with
      | None =>
          UsageError (ArgumentError Help (IgnoredExplicitArgument explicit_arg))
      | Some Help =>
          match rest with
          | [] => HelpExit
          | _ => help_cluster rest next_is_arg
          end
      | Some (Store a) =>
          match rest with
          | [] => if next_is_arg then HelpExit
                  else UsageError (ArgumentError (Store a) ExpectedOneArgument)
          | _ => HelpExit
          end
      end
  end.

Definition is_arg (ts : list token) : bool :=
  match ts with
  | TArg _ :: _ => true
  | _ => false
  end.

(** The second pass: positionals and optionals are consumed from left to
    right. The pattern of the positional allows a double dash on either
    side of its argument, so it takes one next to it along; the pattern of
    an option's argument is a single ['A']. *)
Fixpoint scan (ts : list token) (st : pstate) : parse_exit + pstate :=
  match ts with
  | [] => inr st
  | TArg s :: rest =>
      match st_input st with
      | None =>
          match rest with
          | TDashDash :: rest' => scan rest' (set_input s st)
          | _ => scan rest (set_input s st)
          end
      | Some _ => scan rest (add_extra s st)
      end
  | TDashDash :: rest =>
      match st_input st, rest with
      | None, TArg s :: rest' => scan rest' (set_input s st)
      | _, _ => scan rest (add_extra [DASH; DASH] st)
      end
  | TOpt None _ _ arg_string :: rest => scan rest (add_extra arg_string st)
  | TOpt (Some Help) o None _ :: _ => inl HelpExit
  | TOpt (Some Help) o (Some x) _ :: rest =>
      match x, o with
      | _ :: _, [_; c] =>
          if N.eqb c DASH
          then inl (UsageError
                      (ArgumentError Help (IgnoredExplicitArgument x)))
          else inl (help_cluster x (is_arg rest))
      | _, _ =>
          inl (UsageError (ArgumentError Help (IgnoredExplicitArgument x)))
      end
  | TOpt (Some (Store a)) _ (Some x) _ :: rest =>
      match take_store a x st with
      | inl ex => inl ex
      | inr st' => scan rest st'
      end
  | TOpt (Some (Store a)) _ None _ :: rest =>
      match rest with
      | TArg v :: rest' =>
          match take_store a v st with
          | inl ex => inl ex
          | inr st' => scan rest' st'
          end
      | _ => inl (UsageError (ArgumentError (Store a) ExpectedOneArgument))
      end
  end.

(** The end of [_parse_known_args] and of [parse_args]: the required
    positional, then the unrecognised arguments. *)
Definition finish (st : pstate) : parse_exit + Namespace :=
  match st_input st with
  | None => inl (UsageError (RequiredArguments [u "input"]))
  | Some i =>
      match st_extras st with
      | [] => inr (mkNamespace i (st_model st) (st_output st)
                               (st_language st) (st_task st))
      | extras => inl (UsageError (UnrecognizedArguments extras))
      end
  end.

Definition parse_args (e : Env) (argv : option (list pystr))
  : parse_exit + Namespace :=
  let args := match argv with
              | Some a => a
              | None => sys_argv e
              end in
  match classify (unicode_decimal e) args with
  | inl err => inl (UsageError err)
  | inr ts =>
      match scan ts initial_pstate with
      | inl ex => inl ex
      | inr st => finish st
      end
  end.


(** ** Effects: the file system, the two streams, the calls made *)

(** What is sent to a stream: a line of text, one of the two texts
    argparse formats (the help, and the usage line with an error), or the
    traceback of an exception. *)
Inductive output :=
| Text (s : pystr)
| HelpMessage
| UsageMessage (err : usage_error)
| Traceback (ex : exn).

Inductive event :=
| EvVersionCheck
| EvParseArgs (args : list pystr)
| EvResolve (p : Path)
| EvExists (p : Path)
| EvLoadModel (model_name : value)
| EvTranscribe (path : pystr) (task : value) (language : option value)
               (fp16 : bool)
| EvResolveOutput (input_path : Path) (provided : option value)
                  (task : value)
| EvWriteText (p : Path) (data : pystr)
| EvWhich (cmd : pystr)
| EvStdout (o : output)
| EvStderr (o : output).


Record state := mkState { fs : filesystem; trace : list event }.

(** How a run is cut short: [sys.exit] or an exception nobody catches. *)
Inductive halt :=
| SysExit (status : nat)
| Uncaught (e : exn).

Inductive res (A : Type) :=
| Ret (a : A) (s : state)
| Halt (h : halt) (s : state).

Arguments Ret {A} a s.
Arguments Halt {A} h s.

Definition M (A : Type) := state -> res A.

Definition ret {A} (a : A) : M A := fun s => Ret a s.

Definition bind {A B} (m : M A) (f : A -> M B) : M B :=
  fun s => match m s with
           | Ret a s' => f a s'
           | Halt h s' => Halt h s'
           end.

Declare Scope prog_scope.
Delimit Scope prog_scope with prog.
Notation "x <- m ;; k" := (bind m (fun x => k))
  (at level 61, m at next level, right associativity) : prog_scope.
Notation "m ;; k" := (bind m (fun _ => k))
  (at level 61, right associativity) : prog_scope.
Local Open Scope prog_scope.

Definition emit (ev : event) : M unit :=
  fun s => Ret tt (mkState (fs s) (trace s ++ [ev])).

Definition stop {A} (h : halt) : M A := fun s => Halt h s.

(** [sys.exit(msg)]: the message goes to stderr, the status is 1. *)
Definition sys_exit {A} (msg : pystr) : M A :=
  emit (EvStderr (Text msg)) ;; stop (SysExit 1).

Definition lift_exn {A} (x : exn + A) : M A :=
  match x with
  | inl err => stop (Uncaught err)
  | inr a => ret a
  end.


(** Whether standard output can be sent a line. *)
Definition printable (e : Env) (line : pystr) : bool :=
  forallb (stream_accepts (stdout_errors e)) line.

(** [print(line)]: the text is encoded when it is written to the stream,
    and nothing of it is written when it cannot be. *)
Definition print (e : Env) (line : pystr) : M unit :=
  if printable e line then emit (EvStdout (Text line))
  else stop (Uncaught UnicodeEncodeError).

(** [print(line, file=sys.stderr)]: the error stream escapes what it cannot
    encode. *)
Definition eprint (line : pystr) : M unit := emit (EvStderr (Text line)).

Definition update (f : filesystem) (p : Path) (n : node) : filesystem :=
  fun q => if path_eqb q p then Some n else f q.

(** [p.exists()] *)
Definition path_exists (e : Env) (p : Path) : M bool :=
  emit (EvExists p) ;;
  fun s => match exists_result e (fs s) p with
           | inl ex => Halt (Uncaught ex) s
           | inr b => Ret b s
           end.

(** [p.write_text(data, encoding="utf-8")]: the file is opened for writing,
    which creates or empties it, then the encoded text is written. *)
Definition write_text (e : Env) (p : Path) (data : pystr) : M unit :=
  emit (EvWriteText p data) ;;
  fun s =>
    match os_open e (fs s) p with
    | inl ex => Halt (Uncaught ex) s
    | inr _ =>
        match utf8_encode data with
        | Some b => Ret tt (mkState (update (fs s) p (File b)) (trace s))
        | None =>
            Halt (Uncaught UnicodeEncodeError)
                 (mkState (update (fs s) p (File [])) (trace s))
        end
    end.

(** [whisper.load_model(name)] *)
Definition whisper_load_model (e : Env) (model_name : value) : M Model :=
  emit (EvLoadModel model_name) ;; lift_exn (load_model e model_name).

(** [model.transcribe(str(input_path), task=..., language=..., fp16=...)]
    and the "text" entry of what it returns. *)
Definition model_transcribe (m : Model) (input_path : Path) (task : value)
    (language : option value) (fp16 : bool) : M pystr :=
  emit (EvTranscribe (path_str input_path) task language fp16) ;;
  fun s =>
    match transcribe m (fs s input_path) (path_str input_path) task
                     language fp16 with
    | inl err => Halt (Uncaught err) s
    | inr text => Ret text s
    end.

(** [shutil.which(cmd)] *)
Definition shutil_which (e : Env) (cmd : pystr) : M (option pystr) :=
  emit (EvWhich cmd) ;; ret (which e cmd).

(** The call of [parse_args]: argparse prints and exits by itself. *)
Definition call_parse_args (e : Env) (argv : option (list pystr))
  : M Namespace :=
  emit (EvParseArgs (match argv with Some a => a | None => sys_argv e end)) ;;
  match parse_args e argv with
  | inr args => ret args
  | inl HelpExit => emit (EvStdout HelpMessage) ;; stop (SysExit 0)
  | inl (UsageError err) =>
      emit (EvStderr (UsageMessage err)) ;; stop (SysExit 2)
  end.


(** The call of [resolve_output_path]. *)
Definition call_resolve_output_path (e : Env) (input_path : Path)
    (provided : option value) (task : value) : M Path :=
  emit (EvResolveOutput input_path provided task) ;;
  lift_exn (resolve_output_path e input_path provided task).

(** ** main (transcribe.py, lines 79-120) *)

Definition NL : N := 10.
Definition ELLIPSIS : N := 8230.
Definition CROSS_MARK : N := 10060.
Definition EM_DASH : N := 8212.
Definition POINT_RIGHT : N := 128073.
Definition HEADPHONE : N := 127911.
Definition CHECK_MARK : N := 9989.
Definition WARNING_SIGN : list N := [9888; 65039]%N.

Definition msg_python_version : pystr :=
  [CROSS_MARK]
  ++ u " PyTorch/Whisper wheels are not yet available for Python 3.12. "
  ++ u "Please run this tool under Python 3.8" ++ [EM_DASH]
  ++ u "3.11 (e.g. 3.11.8). Consider using pyenv:" ++ [NL]
  ++ u "   pyenv install 3.11.8 && pyenv local 3.11.8".

Definition msg_not_found (input_path : Path) : pystr :=
  [CROSS_MARK] ++ u " File not found: " ++ path_str input_path.


Definition msg_loading (model_name : value) : pystr :=
  [POINT_RIGHT] ++ u " Loading Whisper model '" ++ format_value model_name
  ++ u "'" ++ [ELLIPSIS] ++ u " This may take a while on first run.".


Definition msg_transcribing : pystr :=
  [HEADPHONE] ++ u " Transcribing" ++ [ELLIPSIS].

Definition msg_done (output_path : Path) : pystr :=
  [CHECK_MARK] ++ u " Done! Transcript saved to: " ++ path_str output_path.

Definition msg_preview_header : pystr :=
  [NL] ++ u "--- Transcript preview (first 1,000 chars) ---".

Definition msg_no_ffmpeg : pystr :=
  WARNING_SIGN
  ++ u "  FFmpeg executable not found in PATH. Whisper might fail to load the audio."
  ++ [NL] ++ u "    " ++ [POINT_RIGHT]
  ++ u " Install it, e.g. 'brew install ffmpeg' (macOS) or from https://ffmpeg.org/download.html".

Definition msg_no_whisper : pystr :=
  [CROSS_MARK]
  ++ u " 'whisper' library not found. Install dependencies first with:"
  ++ [NL] ++ u "   pip install -r requirements.txt" ++ [NL].

(** [sys.version_info >= (3, 12)] *)
Definition version_too_new (v : nat * nat) : bool :=
  let '(major, minor) := v in
  (3 <? major) || ((major =? 3) && (12 <=? minor)).

(** [text[:1000] + ("..." if len(text) > 1000 else "")], line 113. *)
Definition preview (text : pystr) : pystr :=
  firstn 1000 text ++ (if 1000 <? length text then [ELLIPSIS] else []).


(** [Path(args.input).expanduser().resolve()], line 90, as a value. *)
Definition input_path_of (e : Env) (args : Namespace) : exn + Path :=
  resolved_path_of e (ns_input args).

(** The same as the program runs it: [resolve] looks at the file system. *)
Definition call_input_path (e : Env) (args : Namespace) : M Path :=
  expanded <- lift_exn (expanduser e (Path_of (ns_input args))) ;;
  emit (EvResolve expanded) ;;
  lift_exn (resolve e expanded).

Definition main (e : Env) (argv : option (list pystr)) : M unit :=
  emit EvVersionCheck ;;
  if version_too_new (version_info e) then sys_exit msg_python_version
  else
    args <- call_parse_args e argv ;;
    input_path <- call_input_path e args ;;
    found <- path_exists e input_path ;;
    if negb found then sys_exit (msg_not_found input_path)
    else
      print e (msg_loading (ns_model args)) ;;
      model <- whisper_load_model e (ns_model args) ;;
      print e msg_transcribing ;;
      result <- model_transcribe model input_path (ns_task args)
                                 (ns_language args) false ;;
      let text := strip result in
      output_path <- call_resolve_output_path e input_path (ns_output args)
                                              (ns_task args) ;;
      write_text e output_path text ;;
      print e (msg_done output_path) ;;
      print e msg_preview_header ;;
      print e (preview text) ;;
      ffmpeg <- shutil_which e (u "ffmpeg") ;;
      match ffmpeg with
      | None => eprint msg_no_ffmpeg
      | Some _ => ret tt
      end.

(** The script: the import of the model library at the top of the file,
    then [main()] on the arguments of the process. *)
Definition script (e : Env) : M unit :=
  if whisper_importable e then main e None
  else sys_exit msg_no_whisper.

Definition initial_state (f : filesystem) : state := mkState f [].

(** The end of the process: the interpreter prints the traceback of an
    exception nobody caught on the error stream. *)
Definition at_exit (r : res unit) : res unit :=
  match r with
  | Halt (Uncaught ex) s =>
      Halt (Uncaught ex)
           (mkState (fs s) (trace s ++ [EvStderr (Traceback ex)]))
  | _ => r
  end.

(** A run of [main] as a process, from a file system, with nothing traced
    yet. *)
Definition run (e : Env) (argv : list pystr) (f : filesystem) : res unit :=
  at_exit (main e (Some argv) (initial_state f)).

(** A run of the script. *)
Definition run_script (e : Env) (f : filesystem) : res unit :=
  at_exit (script e (initial_state f)).

Definition final_state {A} (r : res A) : state :=
  match r with
  | Ret _ s => s
  | Halt _ s => s
  end.

(** The exit status of the process. *)
Definition exit_status {A} (r : res A) : nat :=
  match r with
  | Ret _ _ => 0
  | Halt (SysExit n) _ => n
  | Halt (Uncaught _) _ => 1
  end.

Definition ascii_digit (c : N) : bool := ((48 <=? c) && (c <=? 57))%N.

(** The limits of Linux on names: 255 bytes for a component, and fewer than
    4096 for a path. *)
Definition byte_length (s : pystr) : nat :=
  match fsencode s with
  | Some b => length b
  | None => 0
  end.

Definition linux_limits (step : os_step) : option errno :=
  match step with
  | WholePath p =>
      if 4096 <=? byte_length (path_str p) then Some ENAMETOOLONG else None
  | Lookup q =>
      if 255 <? byte_length (name q) then Some ENAMETOOLONG else None
  | OpenForWriting _ => None
  end.

(** A concrete machine for the examples: Python 3.11 in a UTF-8 locale, a
    home directory with one recording in it, a model that answers every
    file with the same sentence, and no ffmpeg on the search path. *)
Definition demo_text : pystr := u "  hello world " ++ [NL].

Definition demo_model : Model :=
  mkModel (fun file _ _ _ _ =>
             match file with
             | Some (File _) => inr demo_text
             | _ => inl (ModelFailure (u "cannot decode"))
             end).

Definition demo_env : Env :=
  mkEnv (3, 11) [u "talk.wav"] [u "home"; u "ann"]
        (Some (u "/home/ann")) (Some (u "/home/ann")) (fun _ => None)
        ascii_digit (fun _ => None) true
        (fun n => match n with
                  | Str s => if str_eqb s (u "small") then inr demo_model
                             else inl (ModelFailure (u "unknown model"))
                  | EmptyList => inl (ModelFailure (u "unhashable type"))
                  end)
        linux_limits Strict.

Definition demo_fs : filesystem :=
  fun p =>
    if path_eqb p (Path_of (u "/")) then Some Dir
    else if path_eqb p (Path_of (u "/home")) then Some Dir
    else if path_eqb p (Path_of (u "/home/ann")) then Some Dir
    else if path_eqb p (Path_of (u "/home/ann/talk.wav"))
         then Some (File [82; 73; 70; 70]%N)
    else None.

(** ** Vocabulary of the specification *)

(** The invariant of a pathlib path: no component is empty, a single dot,
    or contains a slash. *)
Definition wf_component (c : pystr) : Prop :=
  c <> [] /\ c <> [DOT] /\ ~ In SLASH c.

Definition wf_path (p : Path) : Prop := Forall wf_component (p_parts p).


(** The stages of the state machine of the program, and the effect that
    marks the start of each. *)
Inductive stage :=
| EnvironmentChecked
| ArgsParsed
| InputValidated
| ModelLoaded
| TranscriptionDone
| OutputWritten.

Definition stage_of (ev : event) : option stage :=
  match ev with
  | EvVersionCheck => Some EnvironmentChecked
  | EvParseArgs _ => Some ArgsParsed
  | EvExists _ => Some InputValidated
  | EvLoadModel _ => Some ModelLoaded
  | EvTranscribe _ _ _ _ => Some TranscriptionDone
  | EvWriteText _ _ => Some OutputWritten
  | _ => None
  end.

Fixpoint stages (t : list event) : list stage :=
  match t with
  | [] => []
  | ev :: t' =>
      match stage_of ev with
      | Some st => st :: stages t'
      | None => stages t'
      end
  end.

(** The order in which the specification lists the stages. *)
Definition specified_order : list stage :=
  [ArgsParsed; EnvironmentChecked; InputValidated; ModelLoaded;
   TranscriptionDone; OutputWritten].

(** The order in which [main] goes through them. *)
Definition program_order : list stage :=
  [EnvironmentChecked; ArgsParsed; InputValidated; ModelLoaded;
   TranscriptionDone; OutputWritten].

(** A run goes through the stages in a given order, none skipped, none
    repeated, none out of turn, when the stages it reaches form an initial
    segment of that order. *)
Definition follows (order reached : list stage) : Prop :=
  exists rest, order = reached ++ rest.

(** Effects that look at or change the file system, or call the model. *)
Definition touches_world (ev : event) : bool :=
  match ev with
  | EvResolve _ | EvExists _ | EvLoadModel _ | EvTranscribe _ _ _ _
  | EvResolveOutput _ _ _ | EvWriteText _ _ | EvWhich _ => true
  | _ => false
  end.

Definition is_load (ev : event) : bool :=
  match ev with
  | EvLoadModel _ => true
  | _ => false
  end.

Definition is_write (ev : event) : bool :=
  match ev with
  | EvWriteText _ _ => true
  | _ => false
  end.


Definition is_which (ev : event) : bool :=
  match ev with
  | EvWhich _ => true
  | _ => false
  end.

(** What a run sent to each stream, in order. *)
Fixpoint stderr_of (t : list event) : list output :=
  match t with
  | [] => []
  | EvStderr o :: t' => o :: stderr_of t'
  | _ :: t' => stderr_of t'
  end.

Fixpoint stdout_of (t : list event) : list output :=
  match t with
  | [] => []
  | EvStdout o :: t' => o :: stdout_of t'
  | _ :: t' => stdout_of t'
  end.

(** [sub in s] *)
Fixpoint contains (s sub : pystr) : bool :=
  startswith s sub
  || match s with
     | [] => false
     | _ :: s' => contains s' sub
     end.


(** The same machine with another answer of [shutil.which]. *)
Definition with_which (e : Env) (w : pystr -> option pystr) : Env :=
  mkEnv (version_info e) (sys_argv e) (cwd e) (environ_HOME e)
        (pwd_current e) (pwd_user e) (unicode_decimal e) w
        (whisper_importable e) (load_model e) (os_refuses e)
        (stdout_errors e).

(** The same machine with another interpreter version. *)
Definition with_version (e : Env) (v : nat * nat) : Env :=
  mkEnv v (sys_argv e) (cwd e) (environ_HOME e)
        (pwd_current e) (pwd_user e) (unicode_decimal e) (which e)
        (whisper_importable e) (load_model e) (os_refuses e)
        (stdout_errors e).

(** The same machine in another working directory. *)
Definition with_cwd (e : Env) (d : list pystr) : Env :=
  mkEnv (version_info e) (sys_argv e) d (environ_HOME e)
        (pwd_current e) (pwd_user e) (unicode_decimal e) (which e)
        (whisper_importable e) (load_model e) (os_refuses e)
        (stdout_errors e).

(** The spellings argparse accepts for the task option: the option string
    and its unambiguous abbreviations. *)
Definition task_spellings : list pystr :=
  [u "--task"; u "--tas"; u "--ta"; u "--t"].

(** The ways a task value [v] is given on the command line: the option and
    then the value, which must not look like an option itself, or both in
    one argument joined by an equals sign, where the value must not be the
    double dash that argparse drops. *)
Inductive task_given (dec : N -> bool) (v : pystr) : list pystr -> Prop :=
| TaskSeparate opt :
    In opt task_spellings ->
    parse_optional dec v = inr None ->
    task_given dec v [opt; v]
| TaskJoined opt :
    In opt task_spellings ->
    v <> [DASH; DASH] ->
    task_given dec v [opt ++ [EQUALS] ++ v].



(** Whether a run returned, rather than exited or raised. *)
Definition returned {A} (r : res A) : bool :=
  match r with
  | Ret _ _ => true
  | Halt _ _ => false
  end.

(** How a run was cut short, if it was. *)
Definition outcome {A} (r : res A) : option halt :=
  match r with
  | Ret _ _ => None
  | Halt h _ => Some h
  end.

Definition is_stderr (ev : event) : bool :=
  match ev with
  | EvStderr _ => true
  | _ => false
  end.

(** The number of times the ffmpeg warning was printed. *)
Definition is_ffmpeg_warning (ev : event) : bool :=
  match ev with
  | EvStderr (Text m) => str_eqb m msg_no_ffmpeg
  | _ => false
  end.

Definition warnings (t : list event) : nat :=
  length (filter is_ffmpeg_warning t).

(** No search for an executable before a file has been written. *)
Fixpoint which_after_write (written : bool) (t : list event) : bool :=
  match t with
  | [] => true
  | EvWriteText _ _ :: t' => which_after_write true t'
  | EvWhich _ :: t' => written && which_after_write written t'
  | _ :: t' => which_after_write written t'
  end.

(** The next token is not the double dash. *)
Definition head_not_dashdash (ts : list token) : Prop :=
  match ts with
  | TDashDash :: _ => False
  | _ => True
  end.

(** The arguments before the task option are read without ending the
    parse, and none of them is the double dash that turns the rest into
    positionals. *)
Definition parser_passes (dec : N -> bool) (pre : list pystr) : Prop :=
  ~ In [DASH; DASH] pre
  /\ exists tokens st,
       classify dec pre = inr tokens
       /\ scan tokens initial_pstate = inr st.

(** No argument is an ambiguous abbreviation of several options. *)
Definition unambiguous (dec : N -> bool) (args : list pystr) : Prop :=
  exists tokens, classify dec args = inr tokens.


(** A code point UTF-8 has no encoding for: a surrogate, or a number
    beyond the last code point. *)
Definition unencodable (c : N) : bool :=
  ((55296 <=? c) && (c <=? 57343) || (1114112 <=? c))%N.

(** A string that can be handed to a system call as a path or a name: each
    character can be encoded and none is the null character. *)
Definition convertible (s : pystr) : Prop := fspath_error s = None.

Definition fs_ok (c : N) : bool :=
  match fs_char c with
  | Some _ => negb (N.eqb c 0)
  | None => false
  end.

(** The path is not there: [stat] fails because a component of the path
    does not exist or a component on the way is not a directory. *)
Definition absent (e : Env) (f : filesystem) (p : Path) : Prop :=
  os_stat e f p = inl (OSError ENOENT p)
  \/ os_stat e f p = inl (OSError ENOTDIR p).

(** The ancestor of [p] that keeps its first [k] components: the root for
    [k = 0], the path itself when [k] is the number of its components. *)
Definition ancestor (p : Path) (k : nat) : Path :=
  mkPath (p_root p) (firstn k (p_parts p)).

(** ** The runs of main

    Every run of [main] takes one of the paths below; each constructor
    gives the condition that selects the path, how the run ends and the
    complete trace. *)

Section Runs.

Variable e : Env.
Variable argv : list pystr.
Variable f : filesystem.

(** What the interpreter adds to the trace for an uncaught exception. *)
Definition traceback (ex : exn) : list event := [EvStderr (Traceback ex)].

Definition tr_parsed : list event :=
  [EvVersionCheck; EvParseArgs argv].

(** The input path with its tilde expanded, when it can be. *)
Definition expanded_input (args : Namespace) : Path :=
  match expanduser e (Path_of (ns_input args)) with
  | inr y => y
  | inl _ => Path_of (ns_input args)
  end.

Definition tr_resolved (args : Namespace) : list event :=
  tr_parsed ++ [EvResolve (expanded_input args)].

Definition tr_checked (args : Namespace) (x : Path) : list event :=
  tr_resolved args ++ [EvExists x].

Definition tr_loading (args : Namespace) (x : Path) : list event :=
  tr_checked args x
  ++ [EvStdout (Text (msg_loading (ns_model args)));
      EvLoadModel (ns_model args)].

Definition tr_transcribing (args : Namespace) (x : Path) : list event :=
  tr_loading args x
  ++ [EvStdout (Text msg_transcribing);
      EvTranscribe (path_str x) (ns_task args) (ns_language args) false].

Definition tr_resolving (args : Namespace) (x : Path) : list event :=
  tr_transcribing args x
  ++ [EvResolveOutput x (ns_output args) (ns_task args)].

Definition tr_writing (args : Namespace) (x out : Path) (text : pystr)
  : list event :=
  tr_resolving args x ++ [EvWriteText out text].

Definition tr_reported (args : Namespace) (x out : Path) (text : pystr)
  : list event :=
  tr_writing args x out text
  ++ [EvStdout (Text (msg_done out));
      EvStdout (Text msg_preview_header);
      EvStdout (Text (preview text));
      EvWhich (u "ffmpeg")].

(** The run got past the version check, the parser, the expansion of the
    tilde and [resolve]: [x] is the input path. *)
Record located (args : Namespace) (x : Path) : Prop := {
  loc_version : version_too_new (version_info e) = false;
  loc_args : parse_args e (Some argv) = inr args;
  loc_input : input_path_of e args = inr x
}.

(** The run got as far as the answer of the model: the input was found,
    the line that announces the loading was printed, the model was loaded
    and it answered [raw]. *)
Record transcribed (args : Namespace) (x : Path) (raw : pystr) : Prop := {
  tr_located : located args x;
  tr_found : exists_result e f x = inr true;
  tr_announced : printable e (msg_loading (ns_model args)) = true;
  tr_model : exists m,
      load_model e (ns_model args) = inr m
      /\ transcribe m (f x) (path_str x) (ns_task args) (ns_language args)
                    false = inr raw
}.

(** The run got as far as writing: [out] is the output path. *)
Record resolved (args : Namespace) (x : Path) (raw : pystr) (out : Path)
  : Prop := {
  rs_transcribed : transcribed args x raw;
  rs_output :
    resolve_output_path e x (ns_output args) (ns_task args) = inr out
}.

Inductive run_spec : res unit -> Prop :=
| RunVersion :
    version_too_new (version_info e) = true ->
    run_spec (Halt (SysExit 1)
                (mkState f [EvVersionCheck;
                            EvStderr (Text msg_python_version)]))
| RunHelp :
    version_too_new (version_info e) = false ->
    parse_args e (Some argv) = inl HelpExit ->
    run_spec (Halt (SysExit 0)
                (mkState f (tr_parsed ++ [EvStdout HelpMessage])))
| RunUsage err :
    version_too_new (version_info e) = false ->
    parse_args e (Some argv) = inl (UsageError err) ->
    run_spec (Halt (SysExit 2)
                (mkState f (tr_parsed ++ [EvStderr (UsageMessage err)])))
| RunNoHome args ex :
    version_too_new (version_info e) = false ->
    parse_args e (Some argv) = inr args ->
    expanduser e (Path_of (ns_input args)) = inl ex ->
    run_spec (Halt (Uncaught ex) (mkState f (tr_parsed ++ traceback ex)))
| RunUnresolved args y ex :
    version_too_new (version_info e) = false ->
    parse_args e (Some argv) = inr args ->
    expanduser e (Path_of (ns_input args)) = inr y ->
    resolve e y = inl ex ->
    run_spec (Halt (Uncaught ex)
                (mkState f (tr_resolved args ++ traceback ex)))
| RunNotFound args x :
    located args x ->
    exists_result e f x = inr false ->
    run_spec (Halt (SysExit 1)
                (mkState f (tr_checked args x
                            ++ [EvStderr (Text (msg_not_found x))])))
| RunStatFails args x ex :
    located args x ->
    exists_result e f x = inl ex ->
    run_spec (Halt (Uncaught ex)
                (mkState f (tr_checked args x ++ traceback ex)))
| RunUnannounced args x :
    located args x ->
    exists_result e f x = inr true ->
    printable e (msg_loading (ns_model args)) = false ->
    run_spec (Halt (Uncaught UnicodeEncodeError)
                (mkState f (tr_checked args x
                            ++ traceback UnicodeEncodeError)))
| RunLoadFails args x ex :
    located args x ->
    exists_result e f x = inr true ->
    printable e (msg_loading (ns_model args)) = true ->
    load_model e (ns_model args) = inl ex ->
    run_spec (Halt (Uncaught ex)
                (mkState f (tr_loading args x ++ traceback ex)))
| RunTranscribeFails args x m ex :
    located args x ->
    exists_result e f x = inr true ->
    printable e (msg_loading (ns_model args)) = true ->
    load_model e (ns_model args) = inr m ->
    transcribe m (f x) (path_str x) (ns_task args) (ns_language args) false
    = inl ex ->
    run_spec (Halt (Uncaught ex)
                (mkState f (tr_transcribing args x ++ traceback ex)))
| RunResolveFails args x raw ex :
    transcribed args x raw ->
    resolve_output_path e x (ns_output args) (ns_task args) = inl ex ->
    run_spec (Halt (Uncaught ex)
                (mkState f (tr_resolving args x ++ traceback ex)))
| RunOpenFails args x raw out ex :
    resolved args x raw out ->
    os_open e f out = inl ex ->
    run_spec (Halt (Uncaught ex)
                (mkState f (tr_writing args x out (strip raw)
                            ++ traceback ex)))
| RunEncodeFails args x raw out :
    resolved args x raw out ->
    os_open e f out = inr tt ->
    utf8_encode (strip raw) = None ->
    run_spec (Halt (Uncaught UnicodeEncodeError)
                (mkState (update f out (File []))
                         (tr_writing args x out (strip raw)
                          ++ traceback UnicodeEncodeError)))
| RunUnreported args x raw out content :
    resolved args x raw out ->
    os_open e f out = inr tt ->
    utf8_encode (strip raw) = Some content ->
    printable e (msg_done out) = false ->
    run_spec (Halt (Uncaught UnicodeEncodeError)
                (mkState (update f out (File content))
                         (tr_writing args x out (strip raw)
                          ++ traceback UnicodeEncodeError)))
| RunDone args x raw out content :
    resolved args x raw out ->
    os_open e f out = inr tt ->
    utf8_encode (strip raw) = Some content ->
    printable e (msg_done out) = true ->
    run_spec (Ret tt
                (mkState (update f out (File content))
                         (tr_reported args x out (strip raw)
                          ++ match which e (u "ffmpeg") with
                             | None => [EvStderr (Text msg_no_ffmpeg)]
                             | Some _ => []
                             end))).

End Runs.

(** ** More vocabulary *)

(** The spellings argparse accepts for the help flag. *)
Definition help_spellings : list pystr :=
  [u "-h"; u "--help"; u "--hel"; u "--he"; u "--h"].

(** The two option strings of the model option. *)
Definition model_options : list pystr := [u "-m"; u "--model"].

Definition is_transcribe (ev : event) : bool :=
  match ev with
  | EvTranscribe _ _ _ _ => true
  | _ => false
  end.

(** An argument the parser reads as a positional or as the value of an
    option: it does not look like an option. *)
Definition plain_argument (dec : N -> bool) (s : pystr) : Prop :=
  parse_optional dec s = inr None.

(** The machine of the examples with a model that answers [text]. *)
Definition answering (text : pystr) : Env :=
  mkEnv (version_info demo_env) (sys_argv demo_env) (cwd demo_env)
        (environ_HOME demo_env) (pwd_current demo_env) (pwd_user demo_env)
        (unicode_decimal demo_env) (which demo_env)
        (whisper_importable demo_env)
        (fun _ => inr (mkModel (fun _ _ _ _ _ => inr text)))
        (os_refuses demo_env) (stdout_errors demo_env).

(** * Properties *)

(** ** Strings and paths *)

Lemma str_eqb_eq (a b : pystr) : str_eqb a b = true <-> a = b.
Proof.
  revert b; induction a as [|x a IH]; intros [|y b]; simpl;
    try (split; (discriminate || reflexivity)).
  rewrite andb_true_iff, N.eqb_eq, IH.
  split; [intros [-> ->]; reflexivity | intros H; inversion H; auto].
Qed.


Lemma str_eqb_neq (a b : pystr) : a <> b -> str_eqb a b = false.
Proof.
  intros H; destruct (str_eqb a b) eqn:E; [|reflexivity].
  apply str_eqb_eq in E; contradiction.
Qed.

Lemma parts_eqb_eq (a b : list pystr) : parts_eqb a b = true <-> a = b.
Proof.
  revert b; induction a as [|x a IH]; intros [|y b]; simpl;
    try (split; (discriminate || reflexivity)).
  rewrite andb_true_iff, str_eqb_eq, IH.
  split; [intros [-> ->]; reflexivity | intros H; inversion H; auto].
Qed.

Lemma path_eqb_eq (p q : Path) : path_eqb p q = true <-> p = q.
Proof.
  destruct p as [r l], q as [r' l']; unfold path_eqb; simpl.
  rewrite andb_true_iff, parts_eqb_eq.
  split.
  - intros [H ->]; destruct r, r'; simpl in H; congruence.
  - intros H; inversion H; subst; split; [destruct r'|]; reflexivity.
Qed.

Lemma path_eqb_refl (p : Path) : path_eqb p p = true.
Proof. apply path_eqb_eq; reflexivity. Qed.

Lemma split_on_no_sep (c : N) (s : pystr) :
  Forall (fun w => ~ In c w) (split_on c s).
Proof.
  induction s as [|x s IH]; simpl.
  - constructor; [intros []|constructor].
  - destruct (N.eqb_spec x c) as [->|Hne].
    + constructor; [intros []|exact IH].
    + destruct (split_on c s) as [|w ws].
      * constructor; [|constructor].
        intros [H|[]]; congruence.
      * inversion IH; subst. constructor; [|assumption].
        intros [H|H]; [congruence|contradiction].
Qed.

Lemma split_on_notin (c : N) (s : pystr) :
  ~ In c s -> split_on c s = [s].
Proof.
  induction s as [|x s IH]; simpl; intros H; [reflexivity|].
  destruct (N.eqb_spec x c) as [->|Hne]; [exfalso; auto|].
  rewrite IH by auto. reflexivity.
Qed.

Lemma components_wf (rel : pystr) : Forall wf_component (components rel).
Proof.
  unfold components.
  pose proof (split_on_no_sep SLASH rel) as H.
  induction H as [|w ws Hw _ IH]; simpl; [constructor|].
  destruct (str_eqb w []) eqn:E1; simpl; [exact IH|].
  destruct (str_eqb w [DOT]) eqn:E2; simpl; [exact IH|].
  constructor; [|exact IH].
  repeat split; try assumption; intros ->; simpl in *; discriminate.
Qed.

Lemma parse_parts_wf (l : list pystr) : wf_path (parse_parts l).
Proof.
  induction l as [|part rest IH]; simpl; [constructor|].
  destruct (is_absolute (parse_parts rest)); [exact IH|].
  destruct (splitroot part) as [r rel]. unfold wf_path; simpl.
  apply Forall_app; split; [apply components_wf | exact IH].
Qed.



Lemma stem_no_slash (p : Path) : ~ In SLASH (name p) -> ~ In SLASH (stem p).
Proof.
  unfold stem; intros H.
  destruct (rfind DOT (name p)) as [i|]; [|exact H].
  destruct ((0 <? i) && (i <? length (name p) - 1)); [|exact H].
  intros Hin. apply H. rewrite <- (firstn_skipn i (name p)).
  apply in_or_app; left; exact Hin.
Qed.

Lemma last_in (s : pystr) (d : N) : s <> [] -> In (last s d) s.
Proof.
  induction s as [|x s IH]; [congruence|]. intros _.
  destruct s as [|y s]; [left; reflexivity|].
  right. apply IH. discriminate.
Qed.

Lemma last_part_in (l : list pystr) : last l [] <> [] -> In (last l []) l.
Proof.
  induction l as [|x l IH]; simpl; [congruence|].
  destruct l as [|y l]; [left; reflexivity|].
  intros H; right; apply IH; exact H.
Qed.

(** A non-empty name without a slash that is not a single dot is a name
    [with_name] accepts. *)
Lemma valid_name_plain (n : pystr) :
  n <> [] -> n <> [DOT] -> ~ In SLASH n -> valid_name n = true.
Proof.
  intros Hne Hdot Hs. unfold valid_name.
  assert (Hsr : splitroot n = (NoRoot, n)).
  { unfold splitroot. destruct n as [|x n']; [reflexivity|].
    destruct (N.eqb_spec x SLASH) as [->|_]; [|reflexivity].
    exfalso; apply Hs; left; reflexivity. }
  assert (Hc : components n = [n]).
  { unfold components. rewrite split_on_notin by exact Hs.
    cbn [filter]. rewrite (str_eqb_neq Hne), (str_eqb_neq Hdot).
    reflexivity. }
  assert (Hparse : parse_parts [n] = mkPath NoRoot [n]).
  { cbn [parse_parts is_absolute p_root p_parts root_eqb negb].
    rewrite Hsr, Hc. reflexivity. }
  rewrite Hparse; simpl.
  rewrite (str_eqb_neq Hne); simpl.
  destruct (N.eqb_spec (last n 0%N) SLASH) as [E|_]; [|reflexivity].
  exfalso; apply Hs. rewrite <- E. apply last_in; exact Hne.
Qed.

Lemma default_name_valid (st task : pystr) :
  ~ In SLASH st -> ~ In SLASH task ->
  valid_name (st ++ u "_" ++ task ++ u ".txt") = true.
Proof.
  intros Hs Ht. apply valid_name_plain.
  - intros H. apply (f_equal (@length N)) in H.
    rewrite !length_app in H. simpl in H. lia.
  - intros H. apply (f_equal (@length N)) in H.
    rewrite !length_app in H. simpl in H. lia.
  - intros H. apply in_app_or in H. destruct H as [H|H]; [auto|].
    apply in_app_or in H. destruct H as [H|H].
    + simpl in H. destruct H as [H|[]]. discriminate.
    + apply in_app_or in H. destruct H as [H|H]; [auto|].
      simpl in H. unfold SLASH in H.
      repeat (destruct H as [H|H]; [discriminate|]). exact H.
Qed.

Lemma task_choice_no_slash (task : pystr) :
  In task task_choices -> ~ In SLASH task.
Proof.
  intros [<-|[<-|[]]]; simpl; unfold SLASH; intuition discriminate.
Qed.

(** The path model on a few inputs, as pathlib answers them. *)
Example path_str_normalises :
  path_str (Path_of (u "//a/./b//c.tar.gz/")) = u "//a/b/c.tar.gz".
Proof. vm_compute. reflexivity. Qed.

Example stem_examples :
  stem (Path_of (u "a.tar.gz")) = u "a.tar"
  /\ stem (Path_of (u ".bashrc")) = u ".bashrc"
  /\ stem (Path_of (u "a.")) = u "a."
  /\ stem (Path_of (u "/")) = [].
Proof. repeat split; vm_compute; reflexivity. Qed.


(** ** The conversion of paths for the system *)

Lemma fsencode_some (s : pystr) :
  (exists b, fsencode s = Some b)
  <-> forallb (fun c => match fs_char c with Some _ => true | None => false end)
              s = true.
Proof.
  induction s as [|c s IH]; simpl.
  - split; [reflexivity | eexists; reflexivity].
  - destruct (fs_char c) as [b|]; simpl.
    + rewrite <- IH. destruct (fsencode s) as [bs|].
      * split; eexists; reflexivity.
      * split; intros [x H]; discriminate.
    + split; [intros [x H]|]; discriminate.
Qed.

Lemma fspath_error_none (s : pystr) :
  convertible s <-> forallb fs_ok s = true.
Proof.
  unfold convertible, fspath_error.
  set (g := fun c => match fs_char c with Some _ => true | None => false end).
  assert (H : forallb fs_ok s = forallb g s && negb (existsb (N.eqb 0) s)).
  { induction s as [|c s IH]; [reflexivity|].
    cbn [forallb existsb]. rewrite IH. unfold fs_ok, g.
    rewrite (N.eqb_sym 0 c).
    destruct (fs_char c), (N.eqb c 0); cbn [negb andb orb];
      rewrite ?andb_false_r; try reflexivity. }
  rewrite H. pose proof (fsencode_some s) as E. fold g in E.
  destruct (fsencode s) as [b|].
  - rewrite (proj1 E) by (eexists; reflexivity). cbn [andb].
    destruct (existsb (N.eqb 0) s); cbn [negb]; split; congruence.
  - assert (F : forallb g s = false).
    { destruct (forallb g s) eqn:F; [|reflexivity].
      destruct (proj2 E eq_refl). discriminate. }
    rewrite F. cbn [andb]. split; discriminate.
Qed.

Lemma convertible_app (a b : pystr) :
  convertible (a ++ b) <-> convertible a /\ convertible b.
Proof.
  rewrite !fspath_error_none, forallb_app. apply andb_true_iff.
Qed.





Lemma first_error_none (l : list pystr) :
  first_error l = None <-> Forall convertible l.
Proof.
  induction l as [|c l IH]; simpl.
  - split; [constructor|reflexivity].
  - destruct (fspath_error c) as [ex|] eqn:E.
    + split; [discriminate|]. intros H. inversion H; subst.
      unfold convertible in *. congruence.
    + rewrite IH. split.
      * intros H. constructor; assumption.
      * intros H. inversion H; assumption.
Qed.


Lemma fspath_error_kind (s : pystr) (ex : exn) :
  fspath_error s = Some ex -> ex = EmbeddedNull \/ ex = UnicodeEncodeError.
Proof.
  unfold fspath_error. destruct (fsencode s).
  - destruct (existsb (N.eqb 0) s); intros H; inversion H. left. reflexivity.
  - intros H; inversion H. right. reflexivity.
Qed.



(** ** resolve *)

(** What [resolve] returns when it returns. *)
Lemma resolve_returns (e : Env) (p q : Path) :
  resolve e p = inr q ->
  Forall convertible (p_parts p)
  /\ q = mkPath OneSlash
           (normpath [] ((if is_absolute p then [] else cwd e) ++ p_parts p))
  /\ convertible (path_str q).
Proof.
  unfold resolve. destruct (first_error (p_parts p)) eqn:E1; [discriminate|].
  destruct (fspath_error (path_str _)) eqn:E2; [discriminate|].
  intros H; inversion H; subst q. split; [|split].
  - apply first_error_none. exact E1.
  - reflexivity.
  - exact E2.
Qed.

















Example resolve_example :
  resolved_path_of demo_env (u "~/notes/../../bob/./x.txt")
  = inr (Path_of (u "/home/bob/x.txt")).
Proof. vm_compute. reflexivity. Qed.

Example resolve_null :
  resolved_path_of demo_env [97; 0; 98]%N = inl EmbeddedNull.
Proof. vm_compute. reflexivity. Qed.

(** ** Paths and their strings *)

Lemma split_on_app (c : N) (x s : pystr) :
  ~ In c x -> split_on c (x ++ c :: s) = x :: split_on c s.
Proof.
  induction x as [|a x IH]; intros H; simpl.
  - rewrite N.eqb_refl. reflexivity.
  - destruct (N.eqb_spec a c) as [->|_]; [exfalso; apply H; left; reflexivity|].
    rewrite IH by (intros Hin; apply H; right; exact Hin). reflexivity.
Qed.

Lemma split_on_join (parts : list pystr) :
  parts <> [] ->
  Forall (fun w => ~ In SLASH w) parts ->
  split_on SLASH (join [SLASH] parts) = parts.
Proof.
  induction parts as [|x parts IH]; intros Hne Hall; [congruence|].
  inversion Hall; subst.
  destruct parts as [|y parts].
  - simpl. apply split_on_notin. assumption.
  - change (join [SLASH] (x :: y :: parts))
      with (x ++ SLASH :: join [SLASH] (y :: parts)).
    rewrite split_on_app by assumption.
    rewrite IH; [reflexivity|discriminate|assumption].
Qed.

Lemma filter_wf_components (parts : list pystr) :
  Forall wf_component parts ->
  filter (fun x => negb (str_eqb x []) && negb (str_eqb x [DOT])) parts
  = parts.
Proof.
  induction 1 as [|x parts (H1 & H2 & _) _ IH]; simpl; [reflexivity|].
  rewrite (str_eqb_neq H1), (str_eqb_neq H2), IH. reflexivity.
Qed.

Lemma components_join (parts : list pystr) :
  Forall wf_component parts ->
  components (join [SLASH] parts) = parts.
Proof.
  intros H. unfold components. destruct parts as [|x parts].
  - reflexivity.
  - rewrite split_on_join.
    + apply filter_wf_components. exact H.
    + discriminate.
    + eapply Forall_impl; [|exact H]. intros w Hw. apply Hw.
Qed.

(** The joined components do not start with a slash. *)
Lemma join_head (parts : list pystr) :
  Forall wf_component parts ->
  lstrip_char SLASH (join [SLASH] parts) = join [SLASH] parts
  /\ forall c s, join [SLASH] parts = c :: s -> c <> SLASH.
Proof.
  intros H. destruct H as [|x parts (H1 & _ & H3) _]; [split; [reflexivity|discriminate]|].
  destruct x as [|c x]; [congruence|].
  assert (Hc : c <> SLASH) by (intros ->; apply H3; left; reflexivity).
  destruct parts as [|y parts]; simpl;
    (destruct (N.eqb_spec c SLASH); [contradiction|]);
    (split; [reflexivity | intros c' s' E; inversion E; subst; exact Hc]).
Qed.




Lemma root_of_absolute (p : Path) :
  is_absolute p = false -> p_root p = NoRoot.
Proof. unfold is_absolute. destruct (p_root p); simpl; congruence. Qed.



(** ** resolve_output_path *)






(** [resolve] looks at the components of a path and at whether it is
    absolute, not at the number of slashes of its root. *)
Lemma resolve_same_parts (e : Env) (p p' : Path) :
  is_absolute p = is_absolute p' ->
  p_parts p = p_parts p' ->
  resolve e p = resolve e p'.
Proof. unfold resolve. intros -> ->. reflexivity. Qed.


(** The expansion of a first component that starts with a tilde. *)
Lemma expanduser_tilde (e : Env) (p : Path) (first : pystr)
    (rest : list pystr) :
  is_absolute p = false ->
  p_parts p = first :: rest ->
  startswith first [TILDE] = true ->
  expanduser e p
  = match os_expanduser e first with
    | inl ex => inl ex
    | inr homedir =>
        if startswith homedir [TILDE] then inl NoHomeDirectory
        else inr (parse_parts (homedir :: rest))
    end.
Proof.
  intros Ha Hp Ht. unfold expanduser.
  rewrite (root_of_absolute _ Ha), Hp, Ht. reflexivity.
Qed.





(** C2 as the specification states it fails for an input path without a
    final component, such as the root: [with_name] raises. *)
Lemma default_output_root_input :
  ~ exists out,
      resolve_output_path demo_env (Path_of (u "/")) None
                          (Str (u "transcribe"))
      = inr out.
Proof. intros [out H]. vm_compute in H. discriminate. Qed.

(** The default path of a named input and a valid task. *)
Lemma default_output_sibling (input_path : Path) (task : pystr) :
  wf_path input_path ->
  name input_path <> [] ->
  In task task_choices ->
  exists out,
    with_name input_path (stem input_path ++ u "_" ++ task ++ u ".txt")
    = inr out
    /\ parent out = parent input_path
    /\ name out = stem input_path ++ u "_" ++ task ++ u ".txt".
Proof.
  intros Hwf Hname Htask.
  assert (Hslash : ~ In SLASH (name input_path)).
  { pose proof (last_part_in (p_parts input_path) Hname) as Hin.
    unfold wf_path in Hwf. rewrite Forall_forall in Hwf.
    apply Hwf in Hin. apply Hin. }
  unfold with_name.
  rewrite (str_eqb_neq Hname).
  rewrite default_name_valid
    by (auto using stem_no_slash, task_choice_no_slash).
  simpl. eexists; split; [reflexivity|]. split.
  - unfold parent; simpl. rewrite removelast_last. reflexivity.
  - unfold name at 1; simpl. rewrite last_last. reflexivity.
Qed.

(** C2, amended: for every input path that has a final component and every
    valid task, with no output given, resolve_output_path returns a path
    in the same directory as the input whose file name is the stem of the
    input, an underscore, the task and ".txt". *)
Theorem default_output_is_sibling (e : Env) (input_path : Path)
    (task : pystr) :
  wf_path input_path ->
  name input_path <> [] ->
  In task task_choices ->
  exists out,
    resolve_output_path e input_path None (Str task) = inr out
    /\ parent out = parent input_path
    /\ name out = stem input_path ++ u "_" ++ task ++ u ".txt".
Proof.
  intros Hwf Hname Htask.
  exact (default_output_sibling Hwf Hname Htask).
Qed.

Lemma default_output_is_sibling_witness :
  exists out,
    resolve_output_path demo_env (Path_of (u "/home/ann/talk.wav")) None
                        (Str (u "translate")) = inr out
    /\ parent out = parent (Path_of (u "/home/ann/talk.wav"))
    /\ name out = stem (Path_of (u "/home/ann/talk.wav"))
                  ++ u "_" ++ u "translate" ++ u ".txt".
Proof.
  apply default_output_is_sibling.
  - apply parse_parts_wf.
  - vm_compute. discriminate.
  - right; left; reflexivity.
Defined.

(** The path built from the empty string is the working directory. *)
Lemma empty_path_resolved (e : Env) (wd : Path) :
  resolved_path_of e [] = inr wd ->
  wd = mkPath OneSlash (normpath [] (cwd e)).
Proof.
  intros H. unfold resolved_path_of in H.
  change (expanduser e (Path_of [])) with (@inr exn Path (mkPath NoRoot []))
    in H.
  cbn [bind_exn] in H.
  destruct (resolve_returns _ _ H) as (_ & -> & _).
  cbn [is_absolute p_root root_eqb negb p_parts]. rewrite app_nil_r.
  reflexivity.
Qed.

(** C10 as it is stated fails for an input path without a final component:
    with the empty string for output, as with no output, [with_name]
    raises and no path is returned. *)
Lemma empty_output_root_input :
  resolve_output_path demo_env (Path_of (u "/")) (Some (Str []))
                      (Str (u "transcribe"))
  = inl (EmptyName (Path_of (u "/"))).
Proof. vm_compute. reflexivity. Qed.

(** C10, amended: an output argument that is the empty string counts as no
    output argument. For an input path that has a final component and a
    valid task, resolve_output_path returns the default sibling of the
    input, named after its stem and the task, as it does with no output
    argument, and the same on every machine; the path built from the empty
    string is the working directory of the machine. For any input path
    and task, the result, returned or raised, is the one for no output
    argument. *)
Theorem empty_output_is_default (e : Env) (input_path : Path)
    (task : pystr) :
  wf_path input_path ->
  name input_path <> [] ->
  In task task_choices ->
  (exists out,
      resolve_output_path e input_path (Some (Str [])) (Str task) = inr out
      /\ resolve_output_path e input_path None (Str task) = inr out
      /\ parent out = parent input_path
      /\ name out = stem input_path ++ u "_" ++ task ++ u ".txt"
      /\ (forall e',
            resolve_output_path e' input_path (Some (Str [])) (Str task)
            = inr out)
      /\ (forall d wd,
            resolved_path_of (with_cwd e d) [] = inr wd ->
            wd = mkPath OneSlash (normpath [] d)
            /\ resolve_output_path (with_cwd e d) input_path
                                   (Some (Str [])) (Str task)
               = inr out))
  /\ (forall input_path' task',
        resolve_output_path e input_path' (Some (Str [])) task'
        = resolve_output_path e input_path' None task').
Proof.
  intros Hwf Hname Htask. split; [|reflexivity].
  destruct (default_output_sibling Hwf Hname Htask) as (out & Ho & Hp & Hn).
  exists out.
  split; [exact Ho|]. split; [exact Ho|]. split; [exact Hp|].
  split; [exact Hn|]. split; [intros e'; exact Ho|].
  intros d wd H. split; [exact (empty_path_resolved _ H) | exact Ho].
Qed.

Lemma empty_output_is_default_witness :
  exists out,
    resolve_output_path demo_env (Path_of (u "/home/ann/talk.wav"))
                        (Some (Str [])) (Str (u "translate")) = inr out
    /\ name out = u "talk_translate.txt".
Proof.
  destruct (@empty_output_is_default demo_env
              (Path_of (u "/home/ann/talk.wav")) (u "translate")
              (parse_parts_wf _)
              ltac:(vm_compute; discriminate)
              ltac:(right; left; reflexivity))
    as [(out & H1 & _ & _ & Hn & _) _].
  exists out. split; [exact H1|]. rewrite Hn. vm_compute. reflexivity.
Defined.

(** ** What standard output can be sent *)

Lemma stream_accepts_encodable (h : error_handler) (c : N) (b : bytes) :
  utf8_char c = Some b -> stream_accepts h c = true.
Proof. unfold stream_accepts. intros ->. reflexivity. Qed.

Lemma printable_encodable (e : Env) (s : pystr) (b : bytes) :
  utf8_encode s = Some b -> printable e s = true.
Proof.
  unfold printable. revert b. induction s as [|c s IH]; intros b;
    [reflexivity|].
  cbn [utf8_encode forallb].
  destruct (utf8_char c) as [bc|] eqn:Ec; [|discriminate].
  destruct (utf8_encode s) as [bs|]; [|discriminate].
  intros _. rewrite (stream_accepts_encodable _ _ Ec), (IH bs eq_refl).
  reflexivity.
Qed.

Lemma printable_app (e : Env) (a b : pystr) :
  printable e (a ++ b) = printable e a && printable e b.
Proof. apply forallb_app. Qed.

Lemma printable_firstn (e : Env) (n : nat) (s : pystr) :
  printable e s = true -> printable e (firstn n s) = true.
Proof.
  unfold printable. revert n. induction s as [|c s IH]; intros [|n];
    try reflexivity.
  cbn [firstn forallb]. intros H. apply andb_true_iff in H.
  destruct H as [-> H]. apply IH. exact H.
Qed.

Lemma printable_transcribing (e : Env) : printable e msg_transcribing = true.
Proof. eapply printable_encodable. vm_compute. reflexivity. Qed.

Lemma printable_preview_header (e : Env) :
  printable e msg_preview_header = true.
Proof. eapply printable_encodable. vm_compute. reflexivity. Qed.

(** A text that was written as UTF-8 can be printed, and so can its
    preview. *)
Lemma printable_preview (e : Env) (text : pystr) (b : bytes) :
  utf8_encode text = Some b -> printable e (preview text) = true.
Proof.
  intros H. unfold preview. rewrite printable_app.
  rewrite (printable_firstn _ 1000 _ (printable_encodable e _ H)).
  destruct (1000 <? length text); [|reflexivity].
  eapply printable_encodable. vm_compute. reflexivity.
Qed.

(** ** The runs of main *)

Ltac run_steps :=
  cbv [bind emit sys_exit stop ret print eprint call_parse_args
       call_input_path lift_exn path_exists whisper_load_model
       model_transcribe call_resolve_output_path write_text shutil_which
       at_exit fs trace];
  cbn [app negb].

Lemma input_path_resolved (e : Env) (args : Namespace) (y : Path) :
  expanduser e (Path_of (ns_input args)) = inr y ->
  input_path_of e args = resolve e y.
Proof.
  unfold input_path_of, resolved_path_of, bind_exn. intros ->. reflexivity.
Qed.

Lemma expanded_input_eq (e : Env) (args : Namespace) (y : Path) :
  expanduser e (Path_of (ns_input args)) = inr y ->
  expanded_input e args = y.
Proof. unfold expanded_input. intros ->. reflexivity. Qed.

(** Every run is one of the runs of [run_spec]. *)
Lemma run_sound (e : Env) (argv : list pystr) (f : filesystem) :
  run_spec e argv f (run e argv f).
Proof.
  unfold run, main, initial_state. run_steps.
  destruct (version_too_new (version_info e)) eqn:Hv.
  { apply RunVersion; assumption. }
  destruct (parse_args e (Some argv)) as [[|err]|args] eqn:Hp; run_steps.
  { apply RunHelp; assumption. }
  { apply RunUsage; assumption. }
  destruct (expanduser e (Path_of (ns_input args))) as [ex|y] eqn:Hy;
    run_steps.
  { eapply RunNoHome; eassumption. }
  pose proof (expanded_input_eq _ _ Hy) as Hexp.
  destruct (resolve e y) as [ex|x] eqn:Hx; run_steps.
  { pose proof (@RunUnresolved e argv f args y ex Hv Hp Hy Hx) as R.
    unfold tr_resolved in R. rewrite Hexp in R. exact R. }
  assert (L : located e argv args x).
  { constructor; try assumption.
    rewrite (input_path_resolved _ _ Hy). exact Hx. }
  destruct (exists_result e f x) as [ex|[|]] eqn:Hf; run_steps.
  { pose proof (@RunStatFails e argv f args x ex L Hf) as R.
    unfold tr_checked, tr_resolved in R. rewrite Hexp in R. exact R. }
  2:{ pose proof (@RunNotFound e argv f args x L Hf) as R.
      unfold tr_checked, tr_resolved in R. rewrite Hexp in R. exact R. }
  destruct (printable e (msg_loading (ns_model args))) eqn:Hl; run_steps.
  2:{ pose proof (@RunUnannounced e argv f args x L Hf Hl) as R.
      unfold tr_checked, tr_resolved in R. rewrite Hexp in R. exact R. }
  destruct (load_model e (ns_model args)) as [ex|m] eqn:Hm; run_steps.
  { pose proof (@RunLoadFails e argv f args x ex L Hf Hl Hm) as R.
    unfold tr_loading, tr_checked, tr_resolved in R. rewrite Hexp in R.
    exact R. }
  rewrite printable_transcribing. run_steps.
  destruct (transcribe m (f x) (path_str x) (ns_task args)
                       (ns_language args) false) as [ex|raw] eqn:Ht;
    run_steps.
  { pose proof (@RunTranscribeFails e argv f args x m ex L Hf Hl Hm Ht) as R.
    unfold tr_transcribing, tr_loading, tr_checked, tr_resolved in R.
    rewrite Hexp in R. exact R. }
  assert (T : transcribed e argv f args x raw).
  { constructor; try assumption. exists m. auto. }
  destruct (resolve_output_path e x (ns_output args) (ns_task args))
    as [ex|out] eqn:Ho; run_steps.
  { pose proof (@RunResolveFails e argv f args x raw ex T Ho) as R.
    unfold tr_resolving, tr_transcribing, tr_loading, tr_checked,
      tr_resolved in R.
    rewrite Hexp in R. exact R. }
  assert (R : resolved e argv f args x raw out) by (constructor; assumption).
  destruct (os_open e f out) as [ex|[]] eqn:Hw; run_steps.
  { pose proof (@RunOpenFails e argv f args x raw out ex R Hw) as D.
    unfold tr_writing, tr_resolving, tr_transcribing, tr_loading, tr_checked,
      tr_resolved in D.
    rewrite Hexp in D. exact D. }
  destruct (utf8_encode (strip raw)) as [content|] eqn:Hu; run_steps.
  2:{ pose proof (@RunEncodeFails e argv f args x raw out R Hw Hu) as D.
      unfold tr_writing, tr_resolving, tr_transcribing, tr_loading,
        tr_checked, tr_resolved in D.
      rewrite Hexp in D. exact D. }
  destruct (printable e (msg_done out)) eqn:Hd; run_steps.
  2:{ pose proof (@RunUnreported e argv f args x raw out content R Hw Hu Hd)
        as D.
      unfold tr_writing, tr_resolving, tr_transcribing, tr_loading,
        tr_checked, tr_resolved in D.
      rewrite Hexp in D. exact D. }
  rewrite printable_preview_header. run_steps.
  rewrite (printable_preview e _ Hu). run_steps.
  pose proof (@RunDone e argv f args x raw out content R Hw Hu Hd) as D.
  unfold tr_reported, tr_writing, tr_resolving, tr_transcribing, tr_loading,
    tr_checked, tr_resolved in D.
  rewrite Hexp in D.
  destruct (which e (u "ffmpeg")); exact D.
Qed.

Lemma located_inv (e : Env) (argv : list pystr) (args : Namespace)
    (x : Path) :
  located e argv args x ->
  version_too_new (version_info e) = false
  /\ parse_args e (Some argv) = inr args
  /\ exists y,
       expanduser e (Path_of (ns_input args)) = inr y
       /\ resolve e y = inr x.
Proof.
  intros [Hv Hp Hi]. split; [exact Hv|]. split; [exact Hp|].
  unfold input_path_of, resolved_path_of, bind_exn in Hi.
  destruct (expanduser e (Path_of (ns_input args))) as [ex|y];
    [discriminate|].
  exists y. split; [reflexivity|exact Hi].
Qed.

Ltac open_run :=
  repeat match goal with
         | H : resolved _ _ _ _ _ _ _ |- _ => destruct H as [? ?]
         | H : transcribed _ _ _ _ _ _ |- _ =>
             destruct H as [? ? ? (? & ? & ?)]
         | H : located _ _ _ _ |- _ =>
             apply located_inv in H; destruct H as (? & ? & ? & ? & ?)
         end.

(** The conditions of the runs exclude one another. *)
Lemma run_spec_deterministic (e : Env) (argv : list pystr) (f : filesystem)
    (r r' : res unit) :
  run_spec e argv f r -> run_spec e argv f r' -> r = r'.
Proof.
  intros H H'. destruct H; destruct H'; open_run; congruence.
Qed.

(** A result of a run, from the conditions of its path. *)
Lemma run_complete (e : Env) (argv : list pystr) (f : filesystem)
    (r : res unit) :
  run_spec e argv f r -> run e argv f = r.
Proof.
  intros H. apply (run_spec_deterministic (run_sound e argv f) H).
Qed.

(** ** Looking a path up *)

Lemma lookup_unfold (refuses : os_step -> option errno) (f : filesystem)
    (r : root_kind) (done todo : list pystr) :
  lookup refuses f r done todo
  = match refuses (Lookup (mkPath r done)) with
    | Some no => inl no
    | None =>
        match f (mkPath r done) with
        | None => inl ENOENT
        | Some n =>
            match todo with
            | [] => inr n
            | c :: todo' =>
                match n with
                | Dir => lookup refuses f r (done ++ [c]) todo'
                | File _ => inl ENOTDIR
                end
            end
        end
    end.
Proof. destruct todo; reflexivity. Qed.

(** The walk goes through the directories on its way. *)
Lemma lookup_walk (refuses : os_step -> option errno) (f : filesystem)
    (r : root_kind) (k : nat) :
  forall done todo,
    k <= length todo ->
    (forall j, j < k ->
               refuses (Lookup (mkPath r (done ++ firstn j todo))) = None) ->
    (forall j, j < k -> f (mkPath r (done ++ firstn j todo)) = Some Dir) ->
    lookup refuses f r done todo
    = lookup refuses f r (done ++ firstn k todo) (skipn k todo).
Proof.
  induction k as [|k IH]; intros done todo Hk Hr Hf.
  - cbn [firstn skipn]. rewrite app_nil_r. reflexivity.
  - destruct todo as [|c todo]; [cbn [length] in Hk; lia|].
    cbn [length] in Hk.
    pose proof (Hr 0 (Nat.lt_0_succ k)) as Hr0.
    pose proof (Hf 0 (Nat.lt_0_succ k)) as Hf0.
    cbn [firstn] in Hr0, Hf0. rewrite app_nil_r in Hr0, Hf0.
    cbn [lookup]. rewrite Hr0, Hf0.
    rewrite (IH (done ++ [c]) todo).
    + cbn [firstn skipn]. rewrite <- app_assoc. reflexivity.
    + lia.
    + intros j Hj. rewrite <- app_assoc. apply (Hr (S j)). lia.
    + intros j Hj. rewrite <- app_assoc. apply (Hf (S j)). lia.
Qed.

Lemma removelast_firstn_pred (A : Type) (l : list A) :
  removelast l = firstn (pred (length l)) l.
Proof.
  destruct l as [|x l] using rev_ind; [reflexivity|].
  rewrite removelast_last, length_app. cbn [length].
  replace (pred (length l + 1)) with (length l + 0) by lia.
  rewrite firstn_app_2. cbn [firstn]. rewrite app_nil_r. reflexivity.
Qed.

Lemma firstn_removelast_le (A : Type) (l : list A) (j : nat) :
  j <= pred (length l) -> firstn j (removelast l) = firstn j l.
Proof.
  intros H. rewrite removelast_firstn_pred, firstn_firstn.
  rewrite Nat.min_l by exact H. reflexivity.
Qed.

Lemma length_removelast_pred (A : Type) (l : list A) :
  length (removelast l) = pred (length l).
Proof.
  rewrite removelast_firstn_pred, length_firstn. lia.
Qed.

(** What [open] answers by the first thing on the path that is in the
    way: with the first [k] ancestors directories and nothing refused,
    FileNotFoundError when the next one is missing, NotADirectoryError
    when it is a file, IsADirectoryError when the path itself is a
    directory. *)
Lemma os_open_cause (e : Env) (f : filesystem) (out : Path) (k : nat) :
  convertible (path_str out) ->
  os_refuses e (WholePath out) = None ->
  k <= length (p_parts out) ->
  (forall j, j <= k -> os_refuses e (Lookup (ancestor out j)) = None) ->
  (forall j, j < k -> f (ancestor out j) = Some Dir) ->
  (k < length (p_parts out) -> f (ancestor out k) = None ->
   os_open e f out = inl (FileNotFoundError out))
  /\ (k < length (p_parts out) ->
      forall c, f (ancestor out k) = Some (File c) ->
                os_open e f out = inl (NotADirectoryError out))
  /\ (k = length (p_parts out) -> f out = Some Dir ->
      os_open e f out = inl (IsADirectoryError out)).
Proof.
  intros Hc Hw Hk Hr Hf. destruct out as [r parts].
  unfold ancestor in Hr, Hf |- *. cbn [p_root p_parts] in *.
  unfold convertible in Hc. unfold os_open. rewrite Hc, Hw.
  cbn [p_root p_parts].
  assert (Below : k < length parts ->
            lookup (os_refuses e) f r [] (removelast parts)
            = lookup (os_refuses e) f r (firstn k parts)
                     (skipn k (removelast parts))).
  { intros Hlt.
    rewrite (@lookup_walk (os_refuses e) f r k [] (removelast parts)).
    - cbn [app]. rewrite firstn_removelast_le by lia. reflexivity.
    - rewrite length_removelast_pred. lia.
    - intros j Hj. cbn [app]. rewrite firstn_removelast_le by lia.
      apply Hr. lia.
    - intros j Hj. cbn [app]. rewrite firstn_removelast_le by lia.
      apply Hf. exact Hj. }
  split; [|split].
  - intros Hlt Hn. rewrite (Below Hlt), lookup_unfold.
    rewrite (Hr k (Nat.le_refl k)), Hn. reflexivity.
  - intros Hlt c Hn. rewrite (Below Hlt), lookup_unfold.
    rewrite (Hr k (Nat.le_refl k)), Hn.
    destruct (skipn k (removelast parts)); reflexivity.
  - intros -> Hd.
    assert (Hall : lookup (os_refuses e) f r [] (removelast parts)
                   = inr Dir).
    { rewrite (@lookup_walk (os_refuses e) f r (pred (length parts)) []
                            (removelast parts)).
      - cbn [app]. rewrite firstn_removelast_le by lia.
        rewrite <- removelast_firstn_pred.
        rewrite <- length_removelast_pred, skipn_all.
        rewrite lookup_unfold.
        replace (removelast parts)
          with (firstn (pred (length parts)) parts)
          by (symmetry; apply removelast_firstn_pred).
        rewrite (Hr (pred (length parts))) by lia.
        destruct parts as [|c parts].
        + cbn [length pred firstn]. rewrite Hd. reflexivity.
        + rewrite (Hf (pred (length (c :: parts))))
            by (cbn [length pred]; lia).
          reflexivity.
      - rewrite length_removelast_pred. lia.
      - intros j Hj. cbn [app]. rewrite firstn_removelast_le by lia.
        apply Hr. lia.
      - intros j Hj. cbn [app]. rewrite firstn_removelast_le by lia.
        apply Hf. lia. }
    rewrite Hall.
    pose proof (Hr (length parts) (Nat.le_refl _)) as Hlast.
    rewrite firstn_all in Hlast. rewrite Hlast, Hd. reflexivity.
Qed.

(** Where the walk stops: with the first [k] ancestors directories and
    no step refused, the walk is decided by what is at the next one. *)
Lemma lookup_stops (refuses : os_step -> option errno) (f : filesystem)
    (r : root_kind) (parts : list pystr) (k : nat) :
  k <= length parts ->
  (forall j, j <= k -> refuses (Lookup (mkPath r (firstn j parts))) = None) ->
  (forall j, j < k -> f (mkPath r (firstn j parts)) = Some Dir) ->
  lookup refuses f r [] parts
  = match f (mkPath r (firstn k parts)) with
    | None => inl ENOENT
    | Some n =>
        match skipn k parts with
        | [] => inr n
        | c :: todo =>
            match n with
            | Dir => lookup refuses f r (firstn k parts ++ [c]) todo
            | File _ => inl ENOTDIR
            end
        end
    end.
Proof.
  intros Hk Hr Hf.
  rewrite (@lookup_walk refuses f r k [] parts Hk).
  - cbn [app]. rewrite lookup_unfold, (Hr k (Nat.le_refl k)). reflexivity.
  - intros j Hj. apply Hr. lia.
  - intros j Hj. apply Hf. exact Hj.
Qed.

(** A path is not there when, going down from the root through
    directories, the next ancestor is missing, or is a file that is not
    the end of the path. *)
Lemma os_stat_absent (e : Env) (f : filesystem) (p : Path) (k : nat) :
  convertible (path_str p) ->
  os_refuses e (WholePath p) = None ->
  k <= length (p_parts p) ->
  (forall j, j <= k -> os_refuses e (Lookup (ancestor p j)) = None) ->
  (forall j, j < k -> f (ancestor p j) = Some Dir) ->
  f (ancestor p k) = None
  \/ (k < length (p_parts p) /\ exists c, f (ancestor p k) = Some (File c)) ->
  absent e f p.
Proof.
  intros Hc Hw Hk Hr Hf Hn. unfold absent, os_stat.
  unfold convertible in Hc. rewrite Hc, Hw.
  unfold ancestor in Hr, Hf, Hn.
  rewrite (@lookup_stops (os_refuses e) f (p_root p) (p_parts p) k Hk Hr Hf).
  destruct Hn as [-> | (Hlt & c & ->)].
  - left. reflexivity.
  - right. destruct (skipn k (p_parts p)) eqn:E; [|reflexivity].
    exfalso. apply (f_equal (@length _)) in E.
    rewrite length_skipn in E. cbn [length] in E. lia.
Qed.

Lemma resolved_path_convertible (e : Env) (s : pystr) (p : Path) :
  resolved_path_of e s = inr p -> convertible (path_str p).
Proof.
  unfold resolved_path_of, bind_exn.
  destruct (expanduser e (Path_of s)) as [ex|y]; [discriminate|].
  intros H. apply (resolve_returns _ _ H).
Qed.


Ltac tr_unfold :=
  unfold tr_reported, tr_writing, tr_resolving, tr_transcribing,
         tr_loading, tr_checked, tr_resolved, tr_parsed, traceback in *;
  cbn [app final_state trace fs exit_status] in *.

(** Case analysis on the run of [main] on [e], [argv] and [f]. *)
Ltac run_cases e argv f :=
  let H := fresh "Hrun" in
  pose proof (run_sound e argv f) as H;
  destruct H as
    [Hv | Hv Hp | err Hv Hp | args' ex Hv Hp Hy | args' y ex Hv Hp Hy Hx
     | args' x [Hv Hp Hi] Hf | args' x ex [Hv Hp Hi] Hf
     | args' x [Hv Hp Hi] Hf Hl | args' x ex [Hv Hp Hi] Hf Hl Hm
     | args' x m ex [Hv Hp Hi] Hf Hl Hm Ht
     | args' x raw ex [[Hv Hp Hi] Hf Hl [m [Hm Ht]]] Ho
     | args' x raw out ex [[[Hv Hp Hi] Hf Hl [m [Hm Ht]]] Ho] Hw
     | args' x raw out [[[Hv Hp Hi] Hf Hl [m [Hm Ht]]] Ho] Hw Hu
     | args' x raw out content [[[Hv Hp Hi] Hf Hl [m [Hm Ht]]] Ho] Hw Hu Hd
     | args' x raw out content [[[Hv Hp Hi] Hf Hl [m [Hm Ht]]] Ho] Hw Hu Hd].

Lemma update_same (f : filesystem) (p : Path) (n : node) :
  update f p n p = Some n.
Proof. unfold update. rewrite path_eqb_refl. reflexivity. Qed.

Lemma update_other (f : filesystem) (p q : Path) (n : node) :
  q <> p -> update f p n q = f q.
Proof.
  intros H. unfold update. destruct (path_eqb q p) eqn:E; [|reflexivity].
  apply path_eqb_eq in E. contradiction.
Qed.

Lemma startswith_refl (s : pystr) : startswith s s = true.
Proof. induction s as [|x s IH]; simpl; [|rewrite N.eqb_refl]; auto. Qed.

Lemma contains_suffix (a s : pystr) : contains (a ++ s) s = true.
Proof.
  induction a as [|x a IH]; simpl.
  - destruct s; simpl; [reflexivity|].
    rewrite N.eqb_refl, startswith_refl. reflexivity.
  - rewrite IH. apply orb_true_r.
Qed.

Lemma msg_not_found_names_path (p : Path) :
  contains (msg_not_found p) (path_str p) = true.
Proof.
  unfold msg_not_found. rewrite app_assoc. apply contains_suffix.
Qed.

(** ** The order of the stages *)

(** C3 as the specification states it fails on every run: the version of
    the interpreter is checked before the arguments are parsed. *)
Lemma stages_not_in_specified_order :
  ~ follows specified_order
      (stages (trace (final_state (run demo_env [u "talk.wav"] demo_fs)))).
Proof. intros [rest H]. vm_compute in H. discriminate. Qed.

(** C3, amended: in every run the stages are gone through in the order
    environment (interpreter version) check, argument parsing, input-file
    validation, model loading, transcription, output writing; a run stops
    at some stage or reaches the last one, and no stage is entered before
    its predecessor, entered twice or returned to. *)
Theorem stages_in_program_order (e : Env) (argv : list pystr)
    (f : filesystem) :
  follows program_order (stages (trace (final_state (run e argv f))))
  /\ NoDup (stages (trace (final_state (run e argv f)))).
Proof.
  assert (Hnd : forall l, follows program_order l -> NoDup l).
  { intros l [rest H].
    assert (N6 : NoDup program_order).
    { unfold program_order.
      repeat (constructor; [simpl; intuition discriminate|]).
      constructor. }
    rewrite H in N6. apply NoDup_app_remove_r in N6. exact N6. }
  assert (Hf : follows program_order
                 (stages (trace (final_state (run e argv f))))).
  { run_cases e argv f; tr_unfold;
      try destruct (which e (u "ffmpeg"));
      cbn [stages stage_of app]; eexists; reflexivity. }
  split; [exact Hf | apply Hnd; exact Hf].
Qed.

(** ** A missing input file *)

Lemma absent_not_found (e : Env) (f : filesystem) (p : Path) :
  absent e f p -> exists_result e f p = inr false.
Proof. unfold exists_result. intros [-> | ->]; reflexivity. Qed.

(** C4 as the specification states it fails on Python 3.12: the run ends
    at the version check and what it prints does not name the path. *)
Lemma missing_input_on_python_3_12 :
  exists args p,
    parse_args (with_version demo_env (3, 12)) (Some [u "missing.wav"])
    = inr args
    /\ input_path_of (with_version demo_env (3, 12)) args = inr p
    /\ absent (with_version demo_env (3, 12)) demo_fs p
    /\ forallb (fun o => match o with
                         | Text m => negb (contains m (path_str p))
                         | _ => true
                         end)
               (stderr_of
                  (trace (final_state
                            (run (with_version demo_env (3, 12))
                                 [u "missing.wav"] demo_fs)))) = true
    /\ stdout_of
         (trace (final_state
                   (run (with_version demo_env (3, 12))
                        [u "missing.wav"] demo_fs))) = [].
Proof.
  eexists; eexists.
  split; [vm_compute; reflexivity|].
  split; [vm_compute; reflexivity|].
  split; [left; vm_compute; reflexivity|].
  split; vm_compute; reflexivity.
Qed.

(** C4, amended: for every invocation whose arguments parse and whose
    input path resolves, if the resolved path is not there ([stat] fails
    because a component does not exist or a component on the way is not a
    directory) the program ends with exit status 1 before any
    model-loading call, prints nothing on standard output and leaves the
    file system as it was; on an interpreter older than 3.12 its one
    diagnostic is "File not found: " followed by the resolved absolute
    input path, on 3.12 and later it is the message of the version check.
    If [stat] fails for another reason (a name that is too long, a
    directory that may not be searched), an accepted interpreter ends the
    run with that OSError, uncaught, also before any model-loading
    call. The path is not there, in particular, when going down from the
    root through directories, with no step refused by the system, the
    next ancestor is missing or is a file with more of the path to
    go. *)
Theorem missing_input_reported (e : Env) (argv : list pystr)
    (f : filesystem) (args : Namespace) (p : Path) :
  parse_args e (Some argv) = inr args ->
  input_path_of e args = inr p ->
  (absent e f p ->
   exit_status (run e argv f) = 1
   /\ existsb is_load (trace (final_state (run e argv f))) = false
   /\ (forall q, fs (final_state (run e argv f)) q = f q)
   /\ stdout_of (trace (final_state (run e argv f))) = []
   /\ stderr_of (trace (final_state (run e argv f)))
      = [Text (if version_too_new (version_info e)
               then msg_python_version else msg_not_found p)]
   /\ contains (msg_not_found p) (path_str p) = true)
  /\ (forall no,
        os_stat e f p = inl (OSError no p) ->
        no <> ENOENT ->
        no <> ENOTDIR ->
        version_too_new (version_info e) = false ->
        outcome (run e argv f) = Some (Uncaught (OSError no p))
        /\ exit_status (run e argv f) = 1
        /\ existsb is_load (trace (final_state (run e argv f))) = false
        /\ (forall q, fs (final_state (run e argv f)) q = f q)
        /\ stdout_of (trace (final_state (run e argv f))) = []
        /\ stderr_of (trace (final_state (run e argv f)))
           = [Traceback (OSError no p)])
  /\ (forall k,
        os_refuses e (WholePath p) = None ->
        k <= length (p_parts p) ->
        (forall j, j <= k -> os_refuses e (Lookup (ancestor p j)) = None) ->
        (forall j, j < k -> f (ancestor p j) = Some Dir) ->
        f (ancestor p k) = None
        \/ (k < length (p_parts p)
            /\ exists c, f (ancestor p k) = Some (File c)) ->
        absent e f p).
Proof.
  intros Hargs Hin. split; [|split].
  - intros Hmiss.
    destruct (version_too_new (version_info e)) eqn:Hv.
    + rewrite (run_complete (@RunVersion e argv f Hv)).
      repeat split; auto using msg_not_found_names_path.
    + assert (L : located e argv args p) by (constructor; assumption).
      rewrite (run_complete (@RunNotFound e argv f args p L
                               (absent_not_found Hmiss))).
      tr_unfold. repeat split; auto using msg_not_found_names_path.
  - intros no Hstat H1 H2 Hv.
    assert (L : located e argv args p) by (constructor; assumption).
    assert (Hf : exists_result e f p = inl (OSError no p)).
    { unfold exists_result. rewrite Hstat.
      destruct no; try reflexivity; congruence. }
    rewrite (run_complete (@RunStatFails e argv f args p _ L Hf)).
    tr_unfold. repeat split; reflexivity.
  - intros k. apply os_stat_absent.
    apply (resolved_path_convertible _ _ Hin).
Qed.

Lemma missing_input_reported_witness :
  exit_status (run demo_env [u "missing.wav"] demo_fs) = 1
  /\ stderr_of (trace (final_state (run demo_env [u "missing.wav"] demo_fs)))
     = [Text (msg_not_found (Path_of (u "/home/ann/missing.wav")))].
Proof.
  pose proof (proj1 (@missing_input_reported demo_env [u "missing.wav"]
                       demo_fs
                       (mkNamespace (u "missing.wav") (Str (u "small")) None
                                    None (Str (u "transcribe")))
                       (Path_of (u "/home/ann/missing.wav"))
                       eq_refl eq_refl)
                (or_introl eq_refl)) as H.
  split; [apply H | apply H].
Defined.





(** A run that returns is a run that wrote its file. *)
Lemma run_returns (e : Env) (argv : list pystr) (f : filesystem)
    (s : state) :
  run e argv f = Ret tt s ->
  exists args x raw out content,
    resolved e argv f args x raw out
    /\ os_open e f out = inr tt
    /\ utf8_encode (strip raw) = Some content
    /\ printable e (msg_done out) = true
    /\ s = mkState (update f out (File content))
                   (tr_reported e argv args x out (strip raw)
                    ++ match which e (u "ffmpeg") with
                       | None => [EvStderr (Text msg_no_ffmpeg)]
                       | Some _ => []
                       end).
Proof.
  intros Hret.
  pose proof (run_sound e argv f) as H. rewrite Hret in H.
  inversion H; subst.
  exists args, x, raw, out, content. auto.
Qed.

Lemma preview_cases (text : pystr) :
  (1000 < length text
   /\ preview text = firstn 1000 text ++ [ELLIPSIS]
   /\ length (firstn 1000 text) = 1000)
  \/ (length text <= 1000 /\ preview text = text).
Proof.
  unfold preview. destruct (1000 <? length text) eqn:E.
  - apply Nat.ltb_lt in E. left. repeat split; auto.
    apply firstn_length_le. lia.
  - apply Nat.ltb_ge in E. right. split; [exact E|].
    rewrite firstn_all2 by exact E. apply app_nil_r.
Qed.

(** C6: the preview of a text longer than 1000 characters is its first
    1000 characters and then one ellipsis; the preview of a text of at
    most 1000 characters is the text itself; and the last line a
    successful run prints is the preview of the text it wrote. *)
Theorem preview_truncation :
  (forall text,
      (1000 < length text
       /\ preview text = firstn 1000 text ++ [ELLIPSIS]
       /\ length (firstn 1000 text) = 1000)
      \/ (length text <= 1000 /\ preview text = text))
  /\ (forall e argv f s,
         run e argv f = Ret tt s ->
         exists out text,
           filter is_write (trace s) = [EvWriteText out text]
           /\ last (stdout_of (trace s)) HelpMessage = Text (preview text)).
Proof.
  split; [exact preview_cases|].
  intros e argv f s Hret.
  destruct (run_returns _ _ _ Hret)
    as (args & x & raw & out & content & _ & _ & _ & _ & ->).
  exists out, (strip raw). tr_unfold.
  destruct (which e (u "ffmpeg")); split; reflexivity.
Qed.

Lemma preview_truncation_witness :
  exists out text,
    filter is_write
      (trace (final_state (run demo_env [u "talk.wav"] demo_fs)))
    = [EvWriteText out text]
    /\ last (stdout_of
               (trace (final_state (run demo_env [u "talk.wav"] demo_fs))))
            HelpMessage
       = Text (preview text).
Proof.
  apply (proj2 preview_truncation demo_env [u "talk.wav"] demo_fs).
  vm_compute. reflexivity.
Defined.




(** ** The search for ffmpeg *)

(** A run on a machine that differs in [shutil.which] only. *)
Lemma run_with_which (e : Env) (argv : list pystr) (f : filesystem)
    (w : pystr -> option pystr) :
  match run e argv f with
  | Halt h s => run (with_which e w) argv f = Halt h s
  | Ret _ s =>
      exists t,
        trace s = t ++ match which e (u "ffmpeg") with
                       | None => [EvStderr (Text msg_no_ffmpeg)]
                       | Some _ => []
                       end
        /\ forallb (fun ev => negb (is_stderr ev)) t = true
        /\ run (with_which e w) argv f
           = Ret tt (mkState (fs s)
                             (t ++ match w (u "ffmpeg") with
                                   | None => [EvStderr (Text msg_no_ffmpeg)]
                                   | Some _ => []
                                   end))
  end.
Proof.
  set (e' := with_which e w).
  run_cases e argv f;
    try assert (L : located e' argv args' x)
      by (constructor; [exact Hv|exact Hp|exact Hi]);
    try assert (T : transcribed e' argv f args' x raw)
      by (constructor; [exact L | exact Hf | exact Hl
                        | exists m; split; [exact Hm | exact Ht]]);
    try assert (R : resolved e' argv f args' x raw out)
      by (constructor; [exact T | exact Ho]).
  - apply run_complete. exact (@RunVersion e' argv f Hv).
  - apply run_complete. exact (@RunHelp e' argv f Hv Hp).
  - apply run_complete. exact (@RunUsage e' argv f err Hv Hp).
  - apply run_complete. exact (@RunNoHome e' argv f args' ex Hv Hp Hy).
  - apply run_complete.
    exact (@RunUnresolved e' argv f args' y ex Hv Hp Hy Hx).
  - apply run_complete. exact (@RunNotFound e' argv f args' x L Hf).
  - apply run_complete. exact (@RunStatFails e' argv f args' x ex L Hf).
  - apply run_complete. exact (@RunUnannounced e' argv f args' x L Hf Hl).
  - apply run_complete.
    exact (@RunLoadFails e' argv f args' x ex L Hf Hl Hm).
  - apply run_complete.
    exact (@RunTranscribeFails e' argv f args' x m ex L Hf Hl Hm Ht).
  - apply run_complete. exact (@RunResolveFails e' argv f args' x raw ex T Ho).
  - apply run_complete.
    exact (@RunOpenFails e' argv f args' x raw out ex R Hw).
  - apply run_complete.
    exact (@RunEncodeFails e' argv f args' x raw out R Hw Hu).
  - apply run_complete.
    exact (@RunUnreported e' argv f args' x raw out content R Hw Hu Hd).
  - exists (tr_reported e argv args' x out (strip raw)).
    split; [reflexivity|]. split; [reflexivity|].
    apply run_complete.
    exact (@RunDone e' argv f args' x raw out content R Hw Hu Hd).
Qed.

Lemma filter_not_stderr (t extra : list event) :
  forallb (fun ev => negb (is_stderr ev)) t = true ->
  forallb is_stderr extra = true ->
  filter (fun ev => negb (is_stderr ev)) (t ++ extra) = t.
Proof.
  intros Ht He. rewrite filter_app.
  assert (H1 : filter (fun ev => negb (is_stderr ev)) t = t).
  { induction t as [|ev t IH]; simpl in *; [reflexivity|].
    apply andb_true_iff in Ht. destruct Ht as [H1 H2].
    rewrite H1, IH by exact H2. reflexivity. }
  assert (H2 : filter (fun ev => negb (is_stderr ev)) extra = []).
  { induction extra as [|ev x IH]; simpl in *; [reflexivity|].
    apply andb_true_iff in He. destruct He as [E1 E2].
    rewrite E1. simpl. apply IH. exact E2. }
  rewrite H1, H2. apply app_nil_r.
Qed.

(** C8 as the specification states it fails on a run that ends early:
    ffmpeg is absent, the model cannot decode its input, the run ends with
    the model's exception, whose traceback is all that goes to the error
    stream: no warning is printed. *)
Lemma no_warning_when_run_fails :
  which demo_env (u "ffmpeg") = None
  /\ outcome (run demo_env [u "/home/ann"] demo_fs)
     = Some (Uncaught (ModelFailure (u "cannot decode")))
  /\ stderr_of (trace (final_state (run demo_env [u "/home/ann"] demo_fs)))
     = [Traceback (ModelFailure (u "cannot decode"))]
  /\ warnings (trace (final_state (run demo_env [u "/home/ann"] demo_fs)))
     = 0.
Proof. repeat split; vm_compute; reflexivity. Qed.

(** C8, amended: the ffmpeg executable is looked for only after the output
    file has been written, so only in the runs that return; in such a run,
    when it is absent, exactly one warning goes to the error stream and
    nothing else does; a run that exits or raises before performs no check
    and prints no such warning; and whether ffmpeg is found changes
    neither whether the run returns, nor its exit status, nor the file
    system it leaves, nor anything outside the error stream. *)
Theorem ffmpeg_check_is_soft (e : Env) (argv : list pystr)
    (f : filesystem) (w : pystr -> option pystr) :
  which_after_write false (trace (final_state (run e argv f))) = true
  /\ existsb is_which (trace (final_state (run e argv f)))
     = returned (run e argv f)
  /\ match run e argv f with
     | Ret _ s =>
         stderr_of (trace s)
         = match which e (u "ffmpeg") with
           | None => [Text msg_no_ffmpeg]
           | Some _ => []
           end
     | Halt _ s => warnings (trace s) = 0
     end
  /\ warnings (trace (final_state (run e argv f)))
     = (if returned (run e argv f)
        then match which e (u "ffmpeg") with None => 1 | Some _ => 0 end
        else 0)
  /\ returned (run (with_which e w) argv f) = returned (run e argv f)
  /\ exit_status (run (with_which e w) argv f) = exit_status (run e argv f)
  /\ (forall q, fs (final_state (run (with_which e w) argv f)) q
                = fs (final_state (run e argv f)) q)
  /\ filter (fun ev => negb (is_stderr ev))
            (trace (final_state (run (with_which e w) argv f)))
     = filter (fun ev => negb (is_stderr ev))
              (trace (final_state (run e argv f))).
Proof.
  pose proof (run_with_which e argv f w) as W.
  split; [|split; [|split; [|split]]].
  - run_cases e argv f; tr_unfold;
      try destruct (which e (u "ffmpeg")); reflexivity.
  - run_cases e argv f; tr_unfold;
      try destruct (which e (u "ffmpeg")); reflexivity.
  - run_cases e argv f; tr_unfold;
      try destruct (which e (u "ffmpeg")); reflexivity.
  - run_cases e argv f; tr_unfold;
      try destruct (which e (u "ffmpeg")); reflexivity.
  - destruct (run e argv f) as [[] s|h s].
    + destruct W as (t & Ht & Hns & ->). cbn [returned exit_status final_state fs trace].
      rewrite Ht.
      repeat split; try reflexivity.
      rewrite !filter_not_stderr; try assumption; try reflexivity.
      * destruct (which e (u "ffmpeg")); reflexivity.
      * destruct (w (u "ffmpeg")); reflexivity.
    + rewrite W. repeat split; reflexivity.
Qed.


(** ** Lookups and what a write changes *)

Lemma lookup_ext (refuses : os_step -> option errno) (f f' : filesystem)
    (r : root_kind) (done todo : list pystr) :
  (forall k, k <= length todo ->
             f' (mkPath r (done ++ firstn k todo))
             = f (mkPath r (done ++ firstn k todo))) ->
  lookup refuses f' r done todo = lookup refuses f r done todo.
Proof.
  revert done. induction todo as [|c todo IH]; intros done H.
  - cbn [lookup]. specialize (H 0 (le_n _)). cbn [firstn] in H.
    rewrite app_nil_r in H. rewrite H. reflexivity.
  - cbn [lookup]. pose proof (H 0 (Nat.le_0_l _)) as H0. cbn [firstn] in H0.
    rewrite app_nil_r in H0. rewrite H0.
    destruct (refuses _); [reflexivity|].
    destruct (f (mkPath r done)) as [[|content]|]; try reflexivity.
    apply IH. intros k Hk. specialize (H (S k)). cbn [firstn length] in H.
    rewrite <- !app_assoc. cbn [app]. apply H. lia.
Qed.

(** When a lookup finds something, what is on the way is a directory. *)
Lemma lookup_prefix_dir (refuses : os_step -> option errno) (f : filesystem)
    (r : root_kind) (done todo : list pystr) (n : node) :
  lookup refuses f r done todo = inr n ->
  forall k, k < length todo ->
            f (mkPath r (done ++ firstn k todo)) = Some Dir.
Proof.
  revert done. induction todo as [|c todo IH]; intros done H k Hk;
    [simpl in Hk; lia|].
  cbn [lookup] in H. destruct (refuses _); [discriminate|].
  destruct (f (mkPath r done)) as [[|content]|] eqn:E; try discriminate.
  destruct k as [|k].
  - cbn [firstn]. rewrite app_nil_r. exact E.
  - cbn [firstn]. specialize (IH _ H k). rewrite <- app_assoc in IH.
    apply IH. simpl in Hk. lia.
Qed.

(** A file that can be opened for writing is not a directory, and it has
    a name. *)
Lemma os_open_not_dir (e : Env) (f : filesystem) (p : Path) :
  os_open e f p = inr tt -> f p <> Some Dir /\ p_parts p <> [].
Proof.
  unfold os_open. intros H.
  destruct (fspath_error (path_str p)); [discriminate|].
  destruct (os_refuses e (WholePath p)); [discriminate|].
  destruct (lookup (os_refuses e) f (p_root p) [] (removelast (p_parts p)))
    as [no|[|content]] eqn:El; try discriminate.
  destruct (os_refuses e (Lookup p)); [discriminate|].
  assert (Hd : f p <> Some Dir).
  { intros E. rewrite E in H. discriminate. }
  split; [exact Hd|].
  intros E. apply Hd. rewrite E in El. cbn [removelast lookup] in El.
  destruct (os_refuses e (Lookup (mkPath (p_root p) []))); [discriminate|].
  destruct p as [r l]. cbn [p_root p_parts] in *. subst l.
  destruct (f (mkPath r [])) as [[|content]|]; congruence.
Qed.

(** A file that could be opened for writing can be opened again once it
    has been written. *)
Lemma os_open_after_write (e : Env) (f : filesystem) (out : Path)
    (c : bytes) :
  os_open e f out = inr tt ->
  os_open e (update f out (File c)) out = inr tt.
Proof.
  intros H. destruct (os_open_not_dir _ _ _ H) as [Hd Hne].
  unfold os_open in *.
  destruct (fspath_error (path_str out)); [discriminate|].
  destruct (os_refuses e (WholePath out)); [discriminate|].
  rewrite (@lookup_ext _ f).
  - destruct (lookup (os_refuses e) f (p_root out) []
                     (removelast (p_parts out))) as [no|[|content]];
      try discriminate.
    destruct (os_refuses e (Lookup out)); [discriminate|].
    rewrite update_same.
    destruct (f out) as [[|content]|]; [congruence|exact H|exact H].
  - intros k Hk. apply update_other. intros E.
    apply (f_equal p_parts) in E. cbn [p_parts app] in E.
    destruct (exists_last Hne) as (a & z & Ea). rewrite Ea in E.
    rewrite removelast_last in E.
    apply (f_equal (@length pystr)) in E.
    rewrite length_app, length_firstn in E. cbn [length] in E. lia.
Qed.

(** A file that was found is found again after a write elsewhere. *)
Lemma exists_after_write (e : Env) (f : filesystem) (out : Path) (n : node)
    (x : Path) :
  os_open e f out = inr tt ->
  exists_result e f x = inr true ->
  update f out n x = f x ->
  exists_result e (update f out n) x = inr true.
Proof.
  intros Ho He Hx. destruct (os_open_not_dir _ _ _ Ho) as [Hd _].
  unfold exists_result, os_stat in *.
  destruct (fspath_error (path_str x)); [exact He|].
  destruct (os_refuses e (WholePath x)); [exact He|].
  destruct (lookup (os_refuses e) f (p_root x) [] (p_parts x))
    as [no|n0] eqn:El.
  - exfalso. destruct (ignore_error no); discriminate.
  - rewrite (@lookup_ext _ f), El; [reflexivity|].
    intros k Hk. cbn [app].
    destruct (Nat.eq_dec k (length (p_parts x))) as [->|Hneq].
    + rewrite firstn_all. destruct x as [r l]. exact Hx.
    + apply update_other. intros E. apply Hd. rewrite <- E.
      apply (lookup_prefix_dir _ _ _ _ _ El). lia.
Qed.

(** ** Running twice *)

Lemma update_twice (f : filesystem) (p : Path) (n : node) (q : Path) :
  update (update f p n) p n q = update f p n q.
Proof. unfold update. destruct (path_eqb q p); reflexivity. Qed.

(** The path of a second run on the file system the first one left, when
    the first one left the input file as it was. *)
Lemma rerun_spec (e : Env) (argv : list pystr) (f : filesystem)
    (r : res unit) :
  run_spec e argv f r ->
  (forall args p,
      parse_args e (Some argv) = inr args ->
      input_path_of e args = inr p ->
      fs (final_state r) p = f p) ->
  exists r2,
    run_spec e argv (fs (final_state r)) r2
    /\ trace (final_state r2) = trace (final_state r)
    /\ outcome r2 = outcome r
    /\ forall q, fs (final_state r2) q = fs (final_state r) q.
Proof.
  intros H. pose proof H as H0.
  destruct H as
    [Hv | Hv Hp | err Hv Hp | args' ex Hv Hp Hy | args' y ex Hv Hp Hy Hx
     | args' x L Hf | args' x ex L Hf
     | args' x L Hf Hl | args' x ex L Hf Hl Hm
     | args' x m ex L Hf Hl Hm Ht
     | args' x raw ex T Ho
     | args' x raw out ex R Hw
     | args' x raw out [[L Hf Hl [m [Hm Ht]]] Ho] Hw Hu
     | args' x raw out content [[L Hf Hl [m [Hm Ht]]] Ho] Hw Hu Hd
     | args' x raw out content [[L Hf Hl [m [Hm Ht]]] Ho] Hw Hu Hd];
    intros Hsame; cbn [final_state fs] in *;
    try (eexists; split; [exact H0 | repeat split; reflexivity]).
  - (* the file was created, the text could not be encoded *)
    set (f1 := update f out (File [])) in *.
    assert (Hin : f1 x = f x)
      by (apply (Hsame args'); [apply L | apply L]).
    assert (R : resolved e argv f1 args' x raw out).
    { constructor; [|exact Ho].
      constructor; [exact L | apply exists_after_write; assumption
                    | exact Hl |].
      exists m. rewrite Hin. auto. }
    eexists. split.
    + exact (@RunEncodeFails e argv f1 args' x raw out R
               (os_open_after_write _ _ _ _ Hw) Hu).
    + repeat split; try reflexivity.
      intros q. apply update_twice.
  - (* the file was written, the line that says so could not be printed *)
    set (f1 := update f out (File content)) in *.
    assert (Hin : f1 x = f x)
      by (apply (Hsame args'); [apply L | apply L]).
    assert (R : resolved e argv f1 args' x raw out).
    { constructor; [|exact Ho].
      constructor; [exact L | apply exists_after_write; assumption
                    | exact Hl |].
      exists m. rewrite Hin. auto. }
    eexists. split.
    + exact (@RunUnreported e argv f1 args' x raw out content R
               (os_open_after_write _ _ _ _ Hw) Hu Hd).
    + repeat split; try reflexivity.
      intros q. apply update_twice.
  - (* the file was written *)
    set (f1 := update f out (File content)) in *.
    assert (Hin : f1 x = f x)
      by (apply (Hsame args'); [apply L | apply L]).
    assert (R : resolved e argv f1 args' x raw out).
    { constructor; [|exact Ho].
      constructor; [exact L | apply exists_after_write; assumption
                    | exact Hl |].
      exists m. rewrite Hin. auto. }
    eexists. split.
    + exact (@RunDone e argv f1 args' x raw out content R
               (os_open_after_write _ _ _ _ Hw) Hu Hd).
    + repeat split; try reflexivity.
      intros q. apply update_twice.
Qed.

(** C9: run the program, then run it again with the same arguments on the
    file system the first run left; if the first run left the input file
    as it was (the model being a function of its arguments and of that
    file), the second run does what the first did: the same effects in the
    same order, so the same text written to the same output path, the same
    end, and a file system equal to the one it started from. *)
Theorem rerun_idempotent (e : Env) (argv : list pystr) (f : filesystem) :
  (forall args p,
      parse_args e (Some argv) = inr args ->
      input_path_of e args = inr p ->
      fs (final_state (run e argv f)) p = f p) ->
  trace (final_state (run e argv (fs (final_state (run e argv f)))))
  = trace (final_state (run e argv f))
  /\ filter is_write
       (trace (final_state (run e argv (fs (final_state (run e argv f))))))
     = filter is_write (trace (final_state (run e argv f)))
  /\ outcome (run e argv (fs (final_state (run e argv f))))
     = outcome (run e argv f)
  /\ returned (run e argv (fs (final_state (run e argv f))))
     = returned (run e argv f)
  /\ forall q,
       fs (final_state (run e argv (fs (final_state (run e argv f))))) q
       = fs (final_state (run e argv f)) q.
Proof.
  intros Hsame.
  destruct (rerun_spec (run_sound e argv f) Hsame)
    as (r2 & Hspec & Ht & Ho & Hfs).
  apply run_complete in Hspec. rewrite Hspec.
  repeat split; try assumption.
  - rewrite Ht. reflexivity.
  - clear - Ho. revert Ho.
    destruct r2, (run e argv f); simpl; congruence.
Qed.

Lemma rerun_idempotent_witness :
  filter is_write
    (trace (final_state
              (run demo_env [u "talk.wav"]
                   (fs (final_state (run demo_env [u "talk.wav"] demo_fs))))))
  = [EvWriteText (Path_of (u "/home/ann/talk_transcribe.txt"))
                 (u "hello world")]
  /\ outcome (run demo_env [u "talk.wav"]
                  (fs (final_state (run demo_env [u "talk.wav"] demo_fs))))
     = None.
Proof.
  assert (Hsame : forall args p,
             parse_args demo_env (Some [u "talk.wav"]) = inr args ->
             input_path_of demo_env args = inr p ->
             fs (final_state (run demo_env [u "talk.wav"] demo_fs)) p
             = demo_fs p).
  { intros args p Hp Hi. vm_compute in Hp. inversion Hp; subst args.
    vm_compute in Hi. inversion Hi; subst p. vm_compute. reflexivity. }
  pose proof (@rerun_idempotent demo_env [u "talk.wav"] demo_fs Hsame)
    as (_ & Hw & Ho & _ & _).
  split.
  - rewrite Hw. vm_compute. reflexivity.
  - rewrite Ho. vm_compute. reflexivity.
Defined.
(** ** The parser and the task option *)

Lemma classify_app (dec : N -> bool) (pre rest : list pystr) :
  ~ In [DASH; DASH] pre ->
  forall tpre,
    classify dec pre = inr tpre ->
    classify dec (pre ++ rest)
    = match classify dec rest with
      | inl err => inl err
      | inr tr => inr (tpre ++ tr)
      end
    /\ Forall (fun t => t <> TDashDash) tpre.
Proof.
  induction pre as [|a pre IH]; intros Hdd tpre Hc.
  - simpl in *. inversion Hc; subst. split; [|constructor].
    destruct (classify dec rest); reflexivity.
  - cbn [classify app] in *.
    destruct (str_eqb a [DASH; DASH]) eqn:E.
    { apply str_eqb_eq in E. subst a. exfalso. apply Hdd. left. reflexivity. }
    destruct (parse_optional dec a) as [err|t]; [discriminate|].
    destruct (classify dec pre) as [err|ts] eqn:Ec; [discriminate|].
    inversion Hc; subst tpre; clear Hc.
    destruct (IH (fun H => Hdd (or_intror H)) ts eq_refl) as [-> Hall].
    split.
    + destruct (classify dec rest); reflexivity.
    + constructor; [|exact Hall].
      destruct t as [[[act o] x]|]; discriminate.
Qed.

Lemma is_arg_app (tpre : list token) a o x s (rest : list token) :
  is_arg (tpre ++ TOpt a o x s :: rest) = is_arg tpre.
Proof. destruct tpre as [|[]]; reflexivity. Qed.

Lemma scan_positional (s : pystr) (rest : list token) (st : pstate) :
  head_not_dashdash rest ->
  scan (TArg s :: rest) st
  = match st_input st with
    | None => scan rest (set_input s st)
    | Some _ => scan rest (add_extra s st)
    end.
Proof.
  destruct rest as [|[]]; simpl; try contradiction;
    destruct (st_input st); reflexivity.
Qed.

Lemma scan_option_then_value (act : store_action) (o s : pystr)
    (rest : list token) (st : pstate) :
  scan (TOpt (Some (Store act)) o None s :: rest) st
  = match rest with
    | TArg v :: rest' =>
        match take_store act v st with
        | inl ex => inl ex
        | inr st' => scan rest' st'
        end
    | _ => inl (UsageError (ArgumentError (Store act) ExpectedOneArgument))
    end.
Proof. destruct rest as [|[]]; reflexivity. Qed.

Lemma head_not_dashdash_app (tpre : list token) a o x s
    (rest : list token) :
  Forall (fun t => t <> TDashDash) tpre ->
  head_not_dashdash (tpre ++ TOpt a o x s :: rest)
  /\ head_not_dashdash tpre.
Proof.
  intros H. destruct H as [|[] tpre Ht]; simpl; auto.
Qed.

Lemma scan_app_bounded (n : nat) (tpre : list token) :
  length tpre <= n ->
  Forall (fun t => t <> TDashDash) tpre ->
  forall st a o x s rest,
    scan (tpre ++ TOpt a o x s :: rest) st
    = match scan tpre st with
      | inl ex => inl ex
      | inr st' => scan (TOpt a o x s :: rest) st'
      end.
Proof.
  revert tpre. induction n as [|n IH]; intros tpre Hlen Hall st a o x s rest;
    destruct tpre as [|t tpre]; try reflexivity; simpl in Hlen; [lia|].
  inversion Hall as [|? ? Ht Hrest]; subst.
  assert (Hlen' : length tpre <= n) by lia.
  destruct t as [s0| |[[|act]|] o0 [x0|] s0]; try congruence.
  - (* a positional *)
    cbn [app].
    destruct (head_not_dashdash_app a o x s rest Hrest) as [H1 H2].
    rewrite !scan_positional by assumption.
    destruct (st_input st); apply IH; assumption.
  - (* -h and more in the same argument *)
    cbn [app scan]. rewrite is_arg_app.
    destruct x0 as [|c0 x0]; [reflexivity|].
    destruct o0 as [|c1 [|c2 [|c3 o0]]]; try reflexivity.
    destruct (N.eqb c2 DASH); reflexivity.
  - reflexivity.
  - (* an option with its value attached *)
    cbn [app scan]. destruct (take_store act x0 st);
      [reflexivity|apply IH; assumption].
  - (* an option and then its value *)
    cbn [app]. rewrite !scan_option_then_value.
    destruct tpre as [|t' tpre']; [reflexivity|].
    inversion Hrest; subst.
    destruct t'; try congruence; cbn [app]; try reflexivity.
    destruct (take_store act s1 st); [reflexivity|].
    apply IH; [simpl in Hlen'; lia | assumption].
  - cbn [app scan]. apply IH; assumption.
  - cbn [app scan]. apply IH; assumption.
Qed.

(** The scan of a list that goes on with an option is the scan of what is
    before the option, then the scan from the option on. *)
Lemma scan_app (tpre : list token) :
  Forall (fun t => t <> TDashDash) tpre ->
  forall st a o x s rest,
    scan (tpre ++ TOpt a o x s :: rest) st
    = match scan tpre st with
      | inl ex => inl ex
      | inr st' => scan (TOpt a o x s :: rest) st'
      end.
Proof. intros H. apply (@scan_app_bounded (length tpre)); auto. Qed.

Lemma task_spelling_parsed (dec : N -> bool) (opt : pystr) :
  In opt task_spellings ->
  str_eqb opt [DASH; DASH] = false
  /\ parse_optional dec opt
     = inr (Some (Some (Store STask), u "--task", None)).
Proof.
  intros [<-|[<-|[<-|[<-|[]]]]]; split; vm_compute; reflexivity.
Qed.

Lemma task_joined_parsed (dec : N -> bool) (opt v : pystr) :
  In opt task_spellings ->
  str_eqb (opt ++ [EQUALS] ++ v) [DASH; DASH] = false
  /\ parse_optional dec (opt ++ [EQUALS] ++ v)
     = inr (Some (Some (Store STask), u "--task", Some v)).
Proof.
  intros [<-|[<-|[<-|[<-|[]]]]]; split; vm_compute; reflexivity.
Qed.

Lemma not_a_choice (v : pystr) :
  ~ In v task_choices -> existsb (str_eqb v) task_choices = false.
Proof.
  intros H. destruct (existsb (str_eqb v) task_choices) eqn:E;
    [|reflexivity].
  apply existsb_exists in E. destruct E as (c & Hc & Heq).
  apply str_eqb_eq in Heq. subst c. contradiction.
Qed.

(** The tokens of a task option with its value, and of what follows. *)
Lemma task_given_classified (dec : N -> bool) (v : pystr)
    (given post : list pystr) (tpost : list token) :
  task_given dec v given ->
  classify dec post = inr tpost ->
  exists o x s rest,
    classify dec (given ++ post)
    = inr (TOpt (Some (Store STask)) o x s :: rest)
    /\ forall st,
         ~ In v task_choices ->
         scan (TOpt (Some (Store STask)) o x s :: rest) st
         = inl (UsageError
                  (ArgumentError (Store STask)
                                 (InvalidChoice v task_choices))).
Proof.
  intros [opt Hopt Hv | opt Hopt Hdd] Hpost.
  - destruct (task_spelling_parsed dec Hopt) as [E1 E2].
    assert (E3 : str_eqb v [DASH; DASH] = false).
    { destruct (str_eqb v [DASH; DASH]) eqn:E; [|reflexivity].
      apply str_eqb_eq in E. subst v. vm_compute in Hv. discriminate. }
    exists (u "--task"), None, opt, (TArg v :: tpost). split.
    + change ([opt; v] ++ post) with (opt :: v :: post).
      cbn [classify]. rewrite E1, E2, E3, Hv, Hpost. reflexivity.
    + intros st Hno. rewrite scan_option_then_value.
      unfold take_store, get_values. rewrite E3, (not_a_choice Hno).
      reflexivity.
  - destruct (task_joined_parsed dec v Hopt) as [E1 E2].
    exists (u "--task"), (Some v), (opt ++ [EQUALS] ++ v), tpost. split.
    + change ([opt ++ [EQUALS] ++ v] ++ post)
        with ((opt ++ [EQUALS] ++ v) :: post).
      cbn [classify]. rewrite E1, E2, Hpost. reflexivity.
    + intros st Hno. cbn [scan]. unfold take_store, get_values.
      rewrite (str_eqb_neq Hdd), (not_a_choice Hno). reflexivity.
Qed.

(** The parser on a few command lines, as argparse answers them. *)
Example parse_defaults :
  parse_args demo_env (Some [u "talk.wav"])
  = inr (mkNamespace (u "talk.wav") (Str (u "small")) None None
                     (Str (u "transcribe"))).
Proof. vm_compute. reflexivity. Qed.

Example parse_all_options :
  parse_args demo_env
    (Some [u "-mtiny"; u "--out"; u "o.txt"; u "--language=en";
           u "--task"; u "translate"; u "a.mp3"])
  = inr (mkNamespace (u "a.mp3") (Str (u "tiny")) (Some (Str (u "o.txt")))
                     (Some (Str (u "en"))) (Str (u "translate"))).
Proof. vm_compute. reflexivity. Qed.

Example parse_empty_output :
  parse_args demo_env (Some [u "a.mp3"; u "-o"; []])
  = inr (mkNamespace (u "a.mp3") (Str (u "small")) (Some (Str [])) None
                     (Str (u "transcribe"))).
Proof. vm_compute. reflexivity. Qed.

Example parse_missing_input :
  parse_args demo_env (Some [u "--task"; u "translate"])
  = inl (UsageError (RequiredArguments [u "input"])).
Proof. vm_compute. reflexivity. Qed.

Example parse_value_after_double_dash :
  parse_args demo_env (Some [u "a.mp3"; u "--task"; u "--"; u "bogus"])
  = inl (UsageError (ArgumentError (Store STask) ExpectedOneArgument)).
Proof. vm_compute. reflexivity. Qed.

Example parse_option_after_double_dash :
  parse_args demo_env (Some [u "a.mp3"; u "--"; u "--task"; u "bogus"])
  = inl (UsageError (UnrecognizedArguments [u "--task"; u "bogus"])).
Proof. vm_compute. reflexivity. Qed.

Example parse_ambiguous_later :
  parse_args demo_env (Some [u "a.mp3"; u "--task"; u "bogus"; u "--=x"])
  = inl (UsageError
           (AmbiguousOption (u "--=x")
              [u "--help"; u "--model"; u "--output"; u "--language";
               u "--task"])).
Proof. vm_compute. reflexivity. Qed.

(** A double dash attached to an option is dropped: the value stored is
    the empty list, whatever the option, and the choices are not looked
    at. *)
Example parse_double_dash_values :
  parse_args demo_env
    (Some [u "a.mp3"; u "--task=--"; u "-m--"; u "-o=--"; u "--lang=--"])
  = inr (mkNamespace (u "a.mp3") EmptyList (Some EmptyList) (Some EmptyList)
                     EmptyList).
Proof. vm_compute. reflexivity. Qed.

Example parse_help_then_ambiguous :
  parse_args demo_env (Some [u "-h"; u "--=x"])
  = inl (UsageError
           (AmbiguousOption (u "--=x")
              [u "--help"; u "--model"; u "--output"; u "--language";
               u "--task"])).
Proof. vm_compute. reflexivity. Qed.

(** C5 as the specification states it fails when a help flag comes first:
    the parser prints the help and the process exits with status 0. *)
Lemma help_before_invalid_task :
  ~ In (u "bogus") task_choices
  /\ parse_args demo_env (Some [u "-h"; u "--task"; u "bogus"])
     = inl HelpExit
  /\ exit_status (run demo_env [u "-h"; u "--task"; u "bogus"] demo_fs) = 0.
Proof.
  split; [|split; vm_compute; reflexivity].
  simpl. intros [H|[H|[]]]; vm_compute in H; discriminate.
Qed.

(** C5, amended: when the parser gets as far as a task option whose value
    is outside the two choices (the arguments before it end the parse
    neither with the help nor with an error, none of them is a double
    dash, and no argument is an ambiguous abbreviation), and the value is
    either the next argument and does not look like an option, or is
    joined to the option by an equals sign and is not the double dash,
    parse_args ends with the usage error that names the value and lists
    the choices, exit status 2; the run of the program then ends with a
    non-zero status without having looked at the file system or called
    the model. *)
Theorem invalid_task_rejected (e : Env) (pre given post : list pystr)
    (v : pystr) :
  parser_passes (unicode_decimal e) pre ->
  task_given (unicode_decimal e) v given ->
  unambiguous (unicode_decimal e) post ->
  ~ In v task_choices ->
  parse_args e (Some (pre ++ given ++ post))
  = inl (UsageError
           (ArgumentError (Store STask) (InvalidChoice v task_choices)))
  /\ task_choices = [u "transcribe"; u "translate"]
  /\ forall f,
       run e (pre ++ given ++ post) f
       = Halt (SysExit (if version_too_new (version_info e) then 1 else 2))
              (mkState f
                 (EvVersionCheck
                  :: if version_too_new (version_info e)
                     then [EvStderr (Text msg_python_version)]
                     else [EvParseArgs (pre ++ given ++ post);
                           EvStderr
                             (UsageMessage
                                (ArgumentError
                                   (Store STask)
                                   (InvalidChoice v task_choices)))]))
       /\ exit_status (run e (pre ++ given ++ post) f) <> 0
       /\ existsb touches_world
                  (trace (final_state (run e (pre ++ given ++ post) f)))
          = false.
Proof.
  intros [Hdd (tpre & st & Hpre & Hscan)] Hgiven [tpost Hpost] Hno.
  assert (Hparse :
            parse_args e (Some (pre ++ given ++ post))
            = inl (UsageError
                     (ArgumentError (Store STask)
                                    (InvalidChoice v task_choices)))).
  { destruct (@task_given_classified _ _ _ _ _ Hgiven Hpost)
      as (o & x & s & rest & Hc & Hs).
    destruct (@classify_app _ _ (given ++ post) Hdd _ Hpre) as [Happ Hall].
    unfold parse_args. rewrite Happ, Hc.
    rewrite (@scan_app _ Hall), Hscan, (Hs st Hno). reflexivity. }
  split; [exact Hparse|]. split; [reflexivity|].
  intros f.
  assert (Hrun :
            run e (pre ++ given ++ post) f
            = Halt (SysExit (if version_too_new (version_info e)
                             then 1 else 2))
                   (mkState f
                      (EvVersionCheck
                       :: if version_too_new (version_info e)
                          then [EvStderr (Text msg_python_version)]
                          else [EvParseArgs (pre ++ given ++ post);
                                EvStderr
                                  (UsageMessage
                                     (ArgumentError
                                        (Store STask)
                                        (InvalidChoice v task_choices)))]))).
  { apply run_complete.
    destruct (version_too_new (version_info e)) eqn:Hv.
    - apply RunVersion. exact Hv.
    - apply RunUsage; assumption. }
  rewrite Hrun. split; [reflexivity|].
  destruct (version_too_new (version_info e)); split;
    (discriminate || reflexivity).
Qed.

Lemma invalid_task_rejected_witness :
  parse_args demo_env
             (Some ([u "talk.wav"] ++ [u "--ta=bogus"] ++ [u "-h"]))
  = inl (UsageError
           (ArgumentError (Store STask)
                          (InvalidChoice (u "bogus") task_choices))).
Proof.
  refine (proj1 (@invalid_task_rejected demo_env [u "talk.wav"]
                   [u "--ta=bogus"] [u "-h"] (u "bogus") _ _ _ _)).
  - split.
    + simpl. intros [H|[]]. vm_compute in H. discriminate.
    + eexists. eexists. split; vm_compute; reflexivity.
  - apply (@TaskJoined (unicode_decimal demo_env) (u "bogus") (u "--ta")).
    + right; right; left. reflexivity.
    + discriminate.
  - eexists. vm_compute. reflexivity.
  - simpl. intros [H|[H|[]]]; vm_compute in H; discriminate.
Defined.
(** * Further properties *)

(** ** Invariants of the parser *)

Lemma scan_positional_then_dashdash (s : pystr) (rest : list token)
    (st : pstate) :
  scan (TArg s :: TDashDash :: rest) st
  = match st_input st with
    | None => scan rest (set_input s st)
    | Some _ => scan (TDashDash :: rest) (add_extra s st)
    end.
Proof.
  change (scan (TArg s :: TDashDash :: rest) st)
    with (match st_input st with
          | None => scan rest (set_input s st)
          | Some _ => scan (TDashDash :: rest) (add_extra s st)
          end).
  reflexivity.
Qed.

Lemma scan_dashdash (rest : list token) (st : pstate) :
  scan (TDashDash :: rest) st
  = match st_input st, rest with
    | None, TArg s :: rest' => scan rest' (set_input s st)
    | _, _ => scan rest (add_extra [DASH; DASH] st)
    end.
Proof.
  destruct rest as [|[]]; cbn [scan]; destruct (st_input st); reflexivity.
Qed.

Lemma scan_help_exits (o : pystr) (x : option pystr) (s : pystr)
    (rest : list token) (st st' : pstate) :
  scan (TOpt (Some Help) o x s :: rest) st <> inr st'.
Proof.
  cbn [scan]. destruct x as [[|c0 x]|]; try discriminate.
  destruct o as [|c1 [|c2 [|c3 o]]]; try discriminate.
  destruct (N.eqb c2 DASH); discriminate.
Qed.

(** A property of the parser state that the three ways of changing it keep
    is kept by the whole scan; [Q] is what is known of the positional
    strings. *)
Lemma scan_invariant (Q : pystr -> Prop) (P : pstate -> Prop) :
  (forall s st, Q s -> P st -> P (set_input s st)) ->
  (forall s st, P st -> P (add_extra s st)) ->
  (forall a v st st', P st -> take_store a v st = inr st' -> P st') ->
  forall n ts,
    length ts <= n ->
    Forall (fun t => forall s, t = TArg s -> Q s) ts ->
    forall st st', P st -> scan ts st = inr st' -> P st'.
Proof.
  intros Hin Hex Hst. induction n as [|n IH]; intros ts Hlen Hq st st' HP Hs;
    destruct ts as [|t rest]; simpl in Hlen; try lia;
    try (simpl in Hs; inversion Hs; subst; exact HP).
  inversion Hq as [|? ? Hqt Hqr]; subst.
  assert (Hlr : length rest <= n) by lia.
  destruct t as [s| |[[|a]|] o [x|] s].
  - (* a positional *)
    assert (Qs : Q s) by (apply Hqt; reflexivity).
    destruct rest as [|t' rest'].
    + simpl in Hs. destruct (st_input st); inversion Hs; subst; auto.
    + destruct t' as [s'| |a' o' x' s'].
      * rewrite scan_positional in Hs by exact I.
        destruct (st_input st);
          refine (IH _ Hlr Hqr _ _ _ Hs); auto.
      * rewrite scan_positional_then_dashdash in Hs.
        inversion Hqr; subst. simpl in Hlr.
        destruct (st_input st).
        -- refine (IH (TDashDash :: rest') _ _ _ _ _ Hs); auto.
        -- refine (IH rest' _ _ _ _ _ Hs); auto. lia.
      * rewrite scan_positional in Hs by exact I.
        destruct (st_input st);
          refine (IH _ Hlr Hqr _ _ _ Hs); auto.
  - (* the double dash *)
    rewrite scan_dashdash in Hs.
    destruct (st_input st).
    + refine (IH _ Hlr Hqr _ _ _ Hs); auto.
    + destruct rest as [|[s'| |a' o' x' s'] rest'];
        try (refine (IH _ Hlr Hqr _ _ _ Hs); solve [auto]).
      inversion Hqr as [|? ? Hq1 Hq2]; subst. simpl in Hlr.
      refine (IH rest' _ Hq2 _ _ _ Hs); [lia|].
      apply Hin; [apply Hq1; reflexivity | exact HP].
  - exfalso. eapply scan_help_exits; eauto.
  - exfalso. eapply scan_help_exits; eauto.
  - cbn [scan] in Hs. destruct (take_store a x st) eqn:E; [discriminate|].
    refine (IH _ Hlr Hqr _ _ _ Hs). eapply Hst; eauto.
  - rewrite scan_option_then_value in Hs.
    destruct rest as [|[v| |a' o' x' s'] rest']; try discriminate.
    destruct (take_store a v st) eqn:E; [discriminate|].
    inversion Hqr; subst. simpl in Hlr.
    refine (IH rest' _ _ _ _ _ Hs); [lia|assumption|]. eapply Hst; eauto.
  - cbn [scan] in Hs. refine (IH _ Hlr Hqr _ _ _ Hs); auto.
  - cbn [scan] in Hs. refine (IH _ Hlr Hqr _ _ _ Hs); auto.
Qed.

(** The positional tokens are arguments of the command line. *)
Lemma classify_positionals (dec : N -> bool) (args : list pystr) :
  forall ts,
    classify dec args = inr ts ->
    Forall (fun t => forall s, t = TArg s -> In s args) ts.
Proof.
  induction args as [|a args IH]; intros ts Hc; cbn [classify] in Hc.
  - inversion Hc; subst. constructor.
  - destruct (str_eqb a [DASH; DASH]).
    + inversion Hc; subst. constructor; [discriminate|].
      apply Forall_forall. intros t Ht s ->.
      apply in_map_iff in Ht. destruct Ht as (s' & E & Hin).
      inversion E; subst. right. exact Hin.
    + destruct (parse_optional dec a) as [err|t]; [discriminate|].
      destruct (classify dec args) as [err|ts'] eqn:Ec; [discriminate|].
      inversion Hc; subst. constructor.
      * intros s Hs. destruct t as [[[act o] x]|]; inversion Hs; subst.
        left. reflexivity.
      * eapply Forall_impl; [|apply (IH ts' eq_refl)].
        intros t0 H s Hs. right. apply H. exact Hs.
Qed.

(** What a successful parse went through. *)
Lemma parse_args_stages (e : Env) (argv : list pystr) (ns : Namespace) :
  parse_args e (Some argv) = inr ns ->
  exists ts st,
    classify (unicode_decimal e) argv = inr ts
    /\ scan ts initial_pstate = inr st
    /\ st_input st = Some (ns_input ns)
    /\ st_task st = ns_task ns
    /\ st_extras st = [].
Proof.
  unfold parse_args. intros H.
  destruct (classify (unicode_decimal e) argv) as [err|ts] eqn:Ec;
    [discriminate|].
  destruct (scan ts initial_pstate) as [ex|st] eqn:Es; [discriminate|].
  exists ts, st. unfold finish in H.
  destruct (st_input st) as [i|]; [|discriminate].
  destruct (st_extras st); [|discriminate].
  inversion H; subst. simpl. repeat split; auto.
Qed.

(** A task is valid when it is one of the two choices, or the empty list
    that stands for a dropped double dash. *)
Lemma take_store_task (a : store_action) (v : pystr) (st st' : pstate) :
  (exists c, In c task_choices /\ st_task st = Str c)
  \/ st_task st = EmptyList ->
  take_store a v st = inr st' ->
  (exists c, In c task_choices /\ st_task st' = Str c)
  \/ st_task st' = EmptyList.
Proof.
  intros H. unfold take_store, get_values.
  destruct (str_eqb v [DASH; DASH]).
  - intros E; inversion E; subst. destruct a; cbn [store st_task]; auto.
  - destruct a; try (intros E; inversion E; subst; exact H).
    destruct (existsb (str_eqb v) task_choices) eqn:Ex; [|discriminate].
    intros E; inversion E; subst. cbn [store st_task].
    apply existsb_exists in Ex. destruct Ex as (c & Hc & Heq).
    apply str_eqb_eq in Heq. subst. left. exists c. auto.
Qed.

Lemma take_store_input (a : store_action) (v : pystr) (st st' : pstate) :
  take_store a v st = inr st' -> st_input st' = st_input st.
Proof.
  unfold take_store. destruct (get_values a v) as [ex|val]; [discriminate|].
  intros E; inversion E; subst. destruct a; reflexivity.
Qed.

(** The task of a parsed command line is one of the two choices, or the
    empty list. *)
Lemma parsed_task_is_choice (e : Env) (argv : list pystr) (ns : Namespace) :
  parse_args e (Some argv) = inr ns ->
  (exists c, In c task_choices /\ ns_task ns = Str c)
  \/ ns_task ns = EmptyList.
Proof.
  intros H. destruct (parse_args_stages _ _ H) as (ts & st & Hc & Hs & _ & <- & _).
  refine (@scan_invariant (fun _ => True)
            (fun st => (exists c, In c task_choices /\ st_task st = Str c)
                       \/ st_task st = EmptyList) _ _ _
            (length ts) ts (le_n _) _ initial_pstate st _ Hs).
  - intros; assumption.
  - intros; assumption.
  - intros a v s1 s2. apply take_store_task.
  - apply Forall_forall. intros; exact I.
  - left. exists (u "transcribe"). split; [left|]; reflexivity.
Qed.

Lemma parsed_input_given (e : Env) (argv : list pystr) (ns : Namespace) :
  parse_args e (Some argv) = inr ns -> In (ns_input ns) argv.
Proof.
  intros H.
  destruct (parse_args_stages _ _ H) as (ts & st & Hc & Hs & Hi & _).
  refine (@scan_invariant (fun s => In s argv)
            (fun st => forall i, st_input st = Some i -> In i argv) _ _ _
            (length ts) ts (le_n _) _ initial_pstate st _ Hs _ Hi).
  - intros s s0 Hq _ i Hi'. simpl in Hi'. inversion Hi'; subst. exact Hq.
  - intros s s0 HP i Hi'. apply HP. exact Hi'.
  - intros a v s1 s2 HP E i Hi'. apply HP.
    rewrite <- (take_store_input _ _ _ E). exact Hi'.
  - apply (classify_positionals _ _ Hc).
  - simpl. discriminate.
Qed.

(** X1: whatever the command line, a namespace that parse_args returns has
    a task that is "transcribe", "translate" or the empty list, and an
    input that is one of the arguments given; in particular the empty
    command line is never accepted. *)
Theorem parsed_namespace_is_validated (e : Env) (argv : list pystr)
    (ns : Namespace) :
  parse_args e (Some argv) = inr ns ->
  (ns_task ns = Str (u "transcribe") \/ ns_task ns = Str (u "translate")
   \/ ns_task ns = EmptyList)
  /\ In (ns_input ns) argv
  /\ argv <> [].
Proof.
  intros H. pose proof (parsed_input_given _ _ H) as Hin.
  split; [|split; [exact Hin|]].
  - destruct (parsed_task_is_choice _ _ H) as [(c & Hc & ->) | ->]; auto.
    destruct Hc as [<-|[<-|[]]]; auto.
  - intros ->. destruct Hin.
Qed.

Lemma parsed_namespace_is_validated_witness :
  (Str (u "translate") = Str (u "transcribe")
   \/ Str (u "translate") = Str (u "translate")
   \/ Str (u "translate") = EmptyList)
  /\ In (u "talk.wav") [u "--task=translate"; u "talk.wav"]
  /\ [u "--task=translate"; u "talk.wav"] <> [].
Proof.
  exact (@parsed_namespace_is_validated demo_env
           [u "--task=translate"; u "talk.wav"]
           (mkNamespace (u "talk.wav") (Str (u "small")) None None
                        (Str (u "translate")))
           eq_refl).
Defined.

Lemma plain_not_dashdash (dec : N -> bool) (s : pystr) :
  plain_argument dec s -> str_eqb s [DASH; DASH] = false.
Proof.
  intros H. destruct (str_eqb s [DASH; DASH]) eqn:E; [|reflexivity].
  apply str_eqb_eq in E. subst s. vm_compute in H. discriminate.
Qed.

Lemma model_option_parsed (dec : N -> bool) (opt : pystr) :
  In opt model_options ->
  str_eqb opt [DASH; DASH] = false
  /\ parse_optional dec opt = inr (Some (Some (Store SModel), opt, None)).
Proof. intros [<-|[<-|[]]]; split; vm_compute; reflexivity. Qed.

(** X2: the model name is not checked against any list: after [-m] or
    [--model] every string that does not look like an option is accepted
    and stored as it is, and the other fields keep their defaults (model
    "small", no output, no language, task "transcribe"). *)
Theorem model_name_not_validated (e : Env) (input opt v : pystr) :
  plain_argument (unicode_decimal e) input ->
  plain_argument (unicode_decimal e) v ->
  In opt model_options ->
  parse_args e (Some [input; opt; v])
  = inr (mkNamespace input (Str v) None None (Str (u "transcribe")))
  /\ parse_args e (Some [opt; v; input])
     = inr (mkNamespace input (Str v) None None (Str (u "transcribe")))
  /\ parse_args e (Some [input])
     = inr (mkNamespace input (Str (u "small")) None None
                        (Str (u "transcribe"))).
Proof.
  intros Hi Hv Ho.
  pose proof (plain_not_dashdash Hi) as Di.
  pose proof (plain_not_dashdash Hv) as Dv.
  destruct (model_option_parsed (unicode_decimal e) Ho) as [Do Po].
  unfold plain_argument in Hi, Hv.
  repeat split; unfold parse_args; cbn [classify];
    rewrite ?Di, ?Dv, ?Do, ?Hi, ?Hv, ?Po;
    cbn [scan st_input initial_pstate set_input];
    unfold take_store, get_values; rewrite ?Dv; reflexivity.
Qed.

Lemma model_name_not_validated_witness :
  parse_args demo_env (Some [u "talk.wav"; u "--model"; u "no such model"])
  = inr (mkNamespace (u "talk.wav") (Str (u "no such model")) None None
                     (Str (u "transcribe"))).
Proof.
  refine (proj1 (@model_name_not_validated demo_env (u "talk.wav")
                   (u "--model") (u "no such model") _ _ _)).
  - vm_compute. reflexivity.
  - vm_compute. reflexivity.
  - right; left; reflexivity.
Defined.

Lemma help_spelling_parsed (dec : N -> bool) (h : pystr) :
  In h help_spellings ->
  str_eqb h [DASH; DASH] = false
  /\ exists o, parse_optional dec h = inr (Some (Some Help, o, None)).
Proof.
  intros [<-|[<-|[<-|[<-|[<-|[]]]]]]; split;
    try (vm_compute; reflexivity); eexists; vm_compute; reflexivity.
Qed.

(** X3: a help flag (in any spelling argparse accepts) that the parser
    reaches ends the parse with the help text and exit status 0 whatever
    follows it, unless an argument after it is an ambiguous abbreviation:
    argparse looks at the spelling of every argument before it acts on
    any, so such an argument ends the parse with its usage error instead.
    Apart from that, what comes after the flag is not looked at: a missing
    input or an invalid task after it is not reported. On an interpreter
    older than 3.12 the run prints the help on standard output and exits
    with status 0 without touching the file system or the model. *)
Theorem help_ends_the_parse (e : Env) (pre post : list pystr) (h : pystr) :
  parser_passes (unicode_decimal e) pre ->
  In h help_spellings ->
  (unambiguous (unicode_decimal e) post ->
   parse_args e (Some (pre ++ [h] ++ post)) = inl HelpExit
   /\ forall f,
        version_too_new (version_info e) = false ->
        run e (pre ++ [h] ++ post) f
        = Halt (SysExit 0)
               (mkState f [EvVersionCheck; EvParseArgs (pre ++ [h] ++ post);
                           EvStdout HelpMessage]))
  /\ (forall err,
        classify (unicode_decimal e) post = inl err ->
        parse_args e (Some (pre ++ [h] ++ post)) = inl (UsageError err)).
Proof.
  intros [Hdd (tpre & st & Hpre & Hscan)] Hh.
  destruct (help_spelling_parsed (unicode_decimal e) Hh) as [Dh [o Ph]].
  destruct (@classify_app _ _ ([h] ++ post) Hdd _ Hpre) as [Happ Hall].
  split.
  - intros [tpost Hpost].
    assert (Hparse : parse_args e (Some (pre ++ [h] ++ post)) = inl HelpExit).
    { unfold parse_args. rewrite Happ.
      change ([h] ++ post) with (h :: post). cbn [classify].
      rewrite Dh, Ph, Hpost.
      rewrite (@scan_app _ Hall), Hscan. reflexivity. }
    split; [exact Hparse|].
    intros f Hv. apply run_complete. apply RunHelp; assumption.
  - intros err Hpost. unfold parse_args. rewrite Happ.
    change ([h] ++ post) with (h :: post). cbn [classify].
    rewrite Dh, Ph, Hpost. reflexivity.
Qed.

Lemma help_ends_the_parse_witness :
  parse_args demo_env
             (Some ([u "-m"; u "tiny"] ++ [u "--he"]
                    ++ [u "--task"; u "bogus"]))
  = inl HelpExit.
Proof.
  refine (proj1 (proj1 (@help_ends_the_parse demo_env [u "-m"; u "tiny"]
                          [u "--task"; u "bogus"] (u "--he") _ _) _)).
  - split.
    + simpl. intros [H|[H|[]]]; vm_compute in H; discriminate.
    + eexists. eexists. split; vm_compute; reflexivity.
  - right; right; right; left. reflexivity.
  - eexists. vm_compute. reflexivity.
Defined.

(** ** The default output path and the input *)

Lemma rfind_skipn (c : N) (s : pystr) (i : nat) :
  rfind c s = Some i -> exists r, skipn i s = c :: r.
Proof.
  revert i; induction s as [|x s IH]; intros i; simpl; [discriminate|].
  destruct (rfind c s) as [j|].
  - intros E; inversion E; subst. simpl. apply IH. reflexivity.
  - destruct (N.eqb_spec x c) as [->|_]; [|discriminate].
    intros E; inversion E; subst. simpl. eexists; reflexivity.
Qed.

(** The name is the stem followed by nothing or by a suffix, which starts
    with a dot. *)
Lemma name_is_stem_and_suffix (p : Path) :
  exists suffix,
    name p = stem p ++ suffix
    /\ (suffix = [] \/ exists r, suffix = DOT :: r).
Proof.
  unfold stem. destruct (rfind DOT (name p)) as [i|] eqn:E.
  - destruct ((0 <? i) && (i <? length (name p) - 1)).
    + exists (skipn i (name p)). split.
      * symmetry. apply firstn_skipn.
      * right. apply (rfind_skipn _ _ E).
    + exists []. split; [symmetry; apply app_nil_r | left; reflexivity].
  - exists []. split; [symmetry; apply app_nil_r | left; reflexivity].
Qed.

Lemma default_name_differs (p : Path) (task : pystr) :
  stem p ++ u "_" ++ task ++ u ".txt" <> name p.
Proof.
  destruct (name_is_stem_and_suffix p) as (suffix & Hn & Hs).
  rewrite Hn. intros H. apply app_inv_head in H.
  destruct Hs as [->|[r ->]]; simpl in H; discriminate.
Qed.


Lemma default_branch (e : Env) (input_path : Path) (provided : option value)
    (task : value) :
  provided = None \/ provided = Some (Str []) \/ provided = Some EmptyList ->
  resolve_output_path e input_path provided task
  = with_name input_path
      (stem input_path ++ u "_" ++ format_value task ++ u ".txt").
Proof. intros [ -> | [ -> | -> ] ]; reflexivity. Qed.

(** The default output has a name the input does not have. *)
Lemma default_output_differs (e : Env) (input_path out : Path)
    (provided : option value) (task : value) :
  provided = None \/ provided = Some (Str []) \/ provided = Some EmptyList ->
  resolve_output_path e input_path provided task = inr out ->
  out <> input_path.
Proof.
  intros Hp H E. subst out. rewrite (default_branch e input_path task Hp) in H.
  unfold with_name in H.
  destruct (str_eqb (name input_path) []); [discriminate|].
  destruct (valid_name _); cbn [negb] in H; [|discriminate].
  injection H as Hout.
  apply (default_name_differs input_path (format_value task)).
  rewrite <- Hout at 2. unfold name; cbn [p_parts].
  symmetry. apply last_last.
Qed.

(** X4: whenever resolve_output_path falls back to the default (no output
    given, or the empty string, or the empty list), the path it returns
    is not the input path: it has the same parent and another name, and
    the input path has a name. *)
Theorem default_output_is_not_the_input (e : Env) (input_path out : Path)
    (provided : option value) (task : value) :
  provided = None \/ provided = Some (Str []) \/ provided = Some EmptyList ->
  resolve_output_path e input_path provided task = inr out ->
  out <> input_path
  /\ name out <> name input_path
  /\ parent out = parent input_path
  /\ name input_path <> [].
Proof.
  intros Hp H. rewrite (default_branch e input_path task Hp) in H.
  clear Hp. unfold with_name in H.
  destruct (str_eqb (name input_path) []) eqn:En; [discriminate|].
  destruct (valid_name _); cbn [negb] in H; [|discriminate].
  injection H as Hout.
  assert (Hname : name out
                  = stem input_path ++ u "_" ++ format_value task
                    ++ u ".txt").
  { rewrite <- Hout. unfold name; cbn [p_parts]. apply last_last. }
  assert (Hd : name out <> name input_path).
  { rewrite Hname. apply default_name_differs. }
  split; [intros E; apply Hd; rewrite E; reflexivity|].
  split; [exact Hd|]. split.
  - rewrite <- Hout. unfold parent; cbn [p_root p_parts].
    rewrite removelast_last. reflexivity.
  - intros E. rewrite E in En. discriminate.
Qed.

Lemma default_output_is_not_the_input_witness :
  Path_of (u "/home/ann/talk_transcribe.txt")
  <> Path_of (u "/home/ann/talk")
  /\ name (Path_of (u "/home/ann/talk_transcribe.txt"))
     <> name (Path_of (u "/home/ann/talk"))
  /\ parent (Path_of (u "/home/ann/talk_transcribe.txt"))
     = parent (Path_of (u "/home/ann/talk"))
  /\ name (Path_of (u "/home/ann/talk")) <> [].
Proof.
  apply (@default_output_is_not_the_input demo_env
           (Path_of (u "/home/ann/talk"))
           (Path_of (u "/home/ann/talk_transcribe.txt"))
           (Some (Str [])) (Str (u "transcribe"))).
  - right. left. reflexivity.
  - vm_compute. reflexivity.
Defined.

(** ** Paths and their strings, and resolve *)

(** X5: the string of a path denotes that path: parsing [str(p)] gives [p]
    back, for every path whose components are well formed (as those of
    every path that comes from a string or from [resolve]). The path the
    program prints in its messages and hands to the model as a string is
    therefore the one it checked and resolved. *)
Theorem path_str_round_trip (p : Path) :
  wf_path p -> Path_of (path_str p) = p.
Proof.
  intros Hwf. destruct p as [r parts]. unfold wf_path in Hwf; simpl in Hwf.
  destruct (join_head Hwf) as [Hstrip Hhead].
  pose proof (components_join Hwf) as Hc.
  unfold Path_of, path_str; cbn [p_root p_parts parse_parts is_absolute
                                 root_eqb negb].
  destruct r; cbn [root_str app].
  - (* relative *)
    destruct (join [SLASH] parts) as [|c s] eqn:Ej.
    + vm_compute. destruct parts as [|x parts]; [reflexivity|].
      exfalso. inversion Hwf as [|? ? (H1 & _) _]; subst.
      destruct x; [congruence|]. destruct parts; simpl in Ej; discriminate.
    + assert (Hne : c <> SLASH) by (eapply Hhead; reflexivity).
      unfold splitroot. destruct (N.eqb_spec c SLASH); [contradiction|].
      rewrite Hc, app_nil_r. reflexivity.
  - (* one slash *)
    unfold splitroot. rewrite N.eqb_refl.
    cbn [lstrip_char]. rewrite N.eqb_refl, Hstrip.
    replace (length (SLASH :: join [SLASH] parts)
             - length (join [SLASH] parts)) with 1 by (cbn [length]; lia).
    cbn [Nat.eqb]. rewrite Hc, app_nil_r. reflexivity.
  - (* two slashes *)
    unfold splitroot. rewrite N.eqb_refl.
    cbn [lstrip_char]. rewrite !N.eqb_refl, Hstrip.
    replace (length (SLASH :: SLASH :: join [SLASH] parts)
             - length (join [SLASH] parts)) with 2 by (cbn [length]; lia).
    cbn [Nat.eqb]. rewrite Hc, app_nil_r. reflexivity.
Qed.

Lemma path_str_round_trip_witness :
  Path_of (path_str (mkPath OneSlash [u "home"; u "ann"; u "talk.wav"]))
  = mkPath OneSlash [u "home"; u "ann"; u "talk.wav"]
  /\ resolved_path_of demo_env (u "notes/../talk.wav")
     = inr (mkPath OneSlash [u "home"; u "ann"; u "talk.wav"]).
Proof.
  split; [|vm_compute; reflexivity].
  apply path_str_round_trip.
  unfold wf_path. cbn [p_parts].
  repeat (constructor;
          [repeat split; try discriminate;
           intros H; repeat (destruct H as [H|H]; [discriminate|]); exact H|]).
  constructor.
Defined.



(** ** More on the runs of main *)

Lemma located_input (e : Env) (argv : list pystr) (args args' : Namespace)
    (x p : Path) :
  parse_args e (Some argv) = inr args ->
  input_path_of e args = inr p ->
  parse_args e (Some argv) = inr args' ->
  input_path_of e args' = inr x ->
  args' = args /\ p = x.
Proof.
  intros Hp Hi Hp' Hx. rewrite Hp in Hp'. inversion Hp'; subst args'.
  split; [reflexivity|]. congruence.
Qed.

(** X7: on a file system without links, and leaving aside what the model
    library keeps in a cache of its own, a run changes the file system at
    the output path at most, and only once the model has transcribed, the
    output path is resolved and the file could be opened: a run that ends
    before that leaves every file as it was. *)
Theorem only_the_output_changes (e : Env) (argv : list pystr)
    (f : filesystem) (q : Path) :
  fs (final_state (run e argv f)) q <> f q ->
  exists args x raw out,
    resolved e argv f args x raw out
    /\ q = out
    /\ os_open e f out = inr tt
    /\ filter is_write (trace (final_state (run e argv f)))
       = [EvWriteText out (strip raw)].
Proof.
  run_cases e argv f; cbn [final_state fs]; intros Hq;
    try (exfalso; apply Hq; reflexivity);
    exists args', x, raw, out;
    (assert (R : resolved e argv f args' x raw out)
       by (repeat constructor; try assumption; exists m; auto));
    (destruct (path_eqb q out) eqn:E;
     [apply path_eqb_eq in E
     |exfalso; apply Hq; unfold update; rewrite E; reflexivity]);
    tr_unfold; try destruct (which e (u "ffmpeg")); auto.
Qed.

Lemma only_the_output_changes_witness :
  exists args x raw out,
    resolved demo_env [u "talk.wav"] demo_fs args x raw out
    /\ Path_of (u "/home/ann/talk_transcribe.txt") = out
    /\ os_open demo_env demo_fs out = inr tt
    /\ filter is_write
         (trace (final_state (run demo_env [u "talk.wav"] demo_fs)))
       = [EvWriteText out (strip raw)].
Proof.
  apply (@only_the_output_changes demo_env [u "talk.wav"] demo_fs
           (Path_of (u "/home/ann/talk_transcribe.txt"))).
  vm_compute. discriminate.
Defined.

(** The input file after a run without an output option. *)
Lemma default_run_keeps_input_file (e : Env) (argv : list pystr)
    (f : filesystem) :
  (forall args, parse_args e (Some argv) = inr args ->
                ns_output args = None \/ ns_output args = Some (Str [])
                \/ ns_output args = Some EmptyList) ->
  forall args p,
    parse_args e (Some argv) = inr args ->
    input_path_of e args = inr p ->
    fs (final_state (run e argv f)) p = f p.
Proof.
  intros Hdef args p Hargs Hin.
  run_cases e argv f; cbn [final_state fs]; try reflexivity;
    destruct (located_input _ _ Hargs Hin Hp Hi) as [-> ->];
    apply update_other; intros E;
    apply (@default_output_differs _ _ _ _ _ (Hdef _ Hargs) Ho);
    symmetry; exact E.
Qed.

(** X8: on a file system without links, without an output option (or
    with an empty one) the program does not write at the input path:
    after any run the file system has there what it had before, and a
    second run with the same arguments on the
    file system the first run left performs the same effects, ends the
    same way and leaves the file system as the first run left it. *)
Theorem default_run_is_repeatable (e : Env) (argv : list pystr)
    (f : filesystem) :
  (forall args, parse_args e (Some argv) = inr args ->
                ns_output args = None \/ ns_output args = Some (Str [])
                \/ ns_output args = Some EmptyList) ->
  (forall args p,
      parse_args e (Some argv) = inr args ->
      input_path_of e args = inr p ->
      fs (final_state (run e argv f)) p = f p)
  /\ trace (final_state (run e argv (fs (final_state (run e argv f)))))
     = trace (final_state (run e argv f))
  /\ outcome (run e argv (fs (final_state (run e argv f))))
     = outcome (run e argv f)
  /\ forall q,
       fs (final_state (run e argv (fs (final_state (run e argv f))))) q
       = fs (final_state (run e argv f)) q.
Proof.
  intros Hdef.
  pose proof (default_run_keeps_input_file e argv f Hdef) as Hsame.
  split; [exact Hsame|].
  destruct (rerun_spec (run_sound e argv f) Hsame)
    as (r2 & Hspec & Ht & Ho & Hfs).
  apply run_complete in Hspec. rewrite Hspec. auto.
Qed.

Lemma default_run_is_repeatable_witness :
  outcome (run demo_env [u "talk.wav"]
               (fs (final_state (run demo_env [u "talk.wav"] demo_fs))))
  = outcome (run demo_env [u "talk.wav"] demo_fs).
Proof.
  refine (proj1 (proj2 (proj2
            (@default_run_is_repeatable demo_env [u "talk.wav"] demo_fs _)))).
  intros args Hp. vm_compute in Hp. inversion Hp; subst args.
  left. reflexivity.
Defined.


(** X10: in every run the model is loaded at most once, only after the
    input was found and the line that announces the loading was printed,
    under the model name that was parsed; transcribe is called at most
    once, only after the model was loaded, with the string of the resolved
    input path, the parsed task (which is "transcribe", "translate" or the
    empty list), the parsed language (none when not given) and fp16
    false. *)
Theorem model_calls (e : Env) (argv : list pystr) (f : filesystem) :
  (filter is_load (trace (final_state (run e argv f))) = []
   /\ filter is_transcribe (trace (final_state (run e argv f))) = [])
  \/ exists args x,
       located e argv args x
       /\ exists_result e f x = inr true
       /\ printable e (msg_loading (ns_model args)) = true
       /\ (ns_task args = Str (u "transcribe")
           \/ ns_task args = Str (u "translate")
           \/ ns_task args = EmptyList)
       /\ filter is_load (trace (final_state (run e argv f)))
          = [EvLoadModel (ns_model args)]
       /\ (filter is_transcribe (trace (final_state (run e argv f))) = []
           \/ (exists m, load_model e (ns_model args) = inr m)
              /\ filter is_transcribe (trace (final_state (run e argv f)))
                 = [EvTranscribe (path_str x) (ns_task args)
                                 (ns_language args) false]).
Proof.
  assert (K : forall args, parse_args e (Some argv) = inr args ->
                           ns_task args = Str (u "transcribe")
                           \/ ns_task args = Str (u "translate")
                           \/ ns_task args = EmptyList).
  { intros args H.
    destruct (parsed_task_is_choice _ _ H) as [(c & Hc & ->) | ->]; auto.
    destruct Hc as [<-|[<-|[]]]; auto. }
  run_cases e argv f; tr_unfold;
    try (left; split; reflexivity);
    right; exists args', x;
    (split; [constructor; assumption|]);
    (split; [assumption|]);
    (split; [assumption|]);
    (split; [apply (K _ Hp)|]);
    try destruct (which e (u "ffmpeg"));
    (split; [reflexivity|]);
    try (left; reflexivity);
    right; (split; [exists m; assumption | reflexivity]).
Qed.

(** X11: what the model library raises is not caught: when load_model or
    transcribe raises, the run ends with that exception, exit status 1,
    after the line that announces the loading and before any call of
    write_text; the error stream gets the traceback of the exception and
    nothing else, so no warning about ffmpeg. *)
Theorem model_errors_propagate (e : Env) (argv : list pystr)
    (f : filesystem) (args : Namespace) (x : Path) (ex : exn) :
  located e argv args x ->
  exists_result e f x = inr true ->
  printable e (msg_loading (ns_model args)) = true ->
  load_model e (ns_model args) = inl ex
  \/ (exists m,
        load_model e (ns_model args) = inr m
        /\ transcribe m (f x) (path_str x) (ns_task args) (ns_language args)
                      false = inl ex) ->
  outcome (run e argv f) = Some (Uncaught ex)
  /\ exit_status (run e argv f) = 1
  /\ filter is_write (trace (final_state (run e argv f))) = []
  /\ stderr_of (trace (final_state (run e argv f))) = [Traceback ex]
  /\ warnings (trace (final_state (run e argv f))) = 0
  /\ hd_error (stdout_of (trace (final_state (run e argv f))))
     = Some (Text (msg_loading (ns_model args))).
Proof.
  intros L Hf Hl [Hm|(m & Hm & Ht)].
  - rewrite (run_complete (@RunLoadFails e argv f args x ex L Hf Hl Hm)).
    tr_unfold. repeat split; reflexivity.
  - rewrite (run_complete
               (@RunTranscribeFails e argv f args x m ex L Hf Hl Hm Ht)).
    tr_unfold. repeat split; reflexivity.
Qed.

Lemma model_errors_propagate_witness :
  outcome (run demo_env [u "talk.wav"; u "-m"; u "huge"] demo_fs)
  = Some (Uncaught (ModelFailure (u "unknown model"))).
Proof.
  refine (proj1 (@model_errors_propagate demo_env
                   [u "talk.wav"; u "-m"; u "huge"] demo_fs
                   (mkNamespace (u "talk.wav") (Str (u "huge")) None None
                                (Str (u "transcribe")))
                   (Path_of (u "/home/ann/talk.wav"))
                   (ModelFailure (u "unknown model")) _ _ _ _)).
  - constructor; vm_compute; reflexivity.
  - vm_compute. reflexivity.
  - vm_compute. reflexivity.
  - left. vm_compute. reflexivity.
Defined.


(** ** The output location *)

(** X12: the output location is looked at only when the text is there.
    When the output file cannot be opened the error of the operating
    system ends the run, exit status 1, after the model has transcribed:
    nothing is written, the success line is not printed and the error
    stream gets the traceback. Going down from the root through
    directories, with nothing refused by the system, the error is
    FileNotFoundError when the next directory on the way is missing,
    NotADirectoryError when it is a file, and IsADirectoryError when the
    output path itself is a directory. *)
Theorem bad_output_location (e : Env) (argv : list pystr) (f : filesystem)
    (args : Namespace) (x : Path) (raw : pystr) (out : Path) :
  resolved e argv f args x raw out ->
  (forall ex,
      os_open e f out = inl ex ->
      outcome (run e argv f) = Some (Uncaught ex)
      /\ exit_status (run e argv f) = 1
      /\ (forall q, fs (final_state (run e argv f)) q = f q)
      /\ filter is_transcribe (trace (final_state (run e argv f)))
         = [EvTranscribe (path_str x) (ns_task args) (ns_language args)
                         false]
      /\ stdout_of (trace (final_state (run e argv f)))
         = [Text (msg_loading (ns_model args)); Text msg_transcribing]
      /\ stderr_of (trace (final_state (run e argv f))) = [Traceback ex])
  /\ forall k,
       convertible (path_str out) ->
       os_refuses e (WholePath out) = None ->
       k <= length (p_parts out) ->
       (forall j, j <= k -> os_refuses e (Lookup (ancestor out j)) = None) ->
       (forall j, j < k -> f (ancestor out j) = Some Dir) ->
       (k < length (p_parts out) -> f (ancestor out k) = None ->
        os_open e f out = inl (FileNotFoundError out))
       /\ (k < length (p_parts out) ->
           forall c, f (ancestor out k) = Some (File c) ->
                     os_open e f out = inl (NotADirectoryError out))
       /\ (k = length (p_parts out) -> f out = Some Dir ->
           os_open e f out = inl (IsADirectoryError out)).
Proof.
  intros R. split.
  - intros ex Hw.
    rewrite (run_complete (@RunOpenFails e argv f args x raw out ex R Hw)).
    tr_unfold. repeat split; reflexivity.
  - intros k. apply os_open_cause.
Qed.

Lemma bad_output_location_witness :
  os_open demo_env demo_fs (Path_of (u "/home/ann/talk.wav/a/b.txt"))
  = inl (NotADirectoryError (Path_of (u "/home/ann/talk.wav/a/b.txt")))
  /\ exit_status
       (run demo_env [u "talk.wav"; u "-o"; u "talk.wav/a/b.txt"] demo_fs)
     = 1.
Proof.
  assert (R : resolved demo_env [u "talk.wav"; u "-o"; u "talk.wav/a/b.txt"]
                demo_fs
                (mkNamespace (u "talk.wav") (Str (u "small"))
                             (Some (Str (u "talk.wav/a/b.txt"))) None
                             (Str (u "transcribe")))
                (Path_of (u "/home/ann/talk.wav")) demo_text
                (Path_of (u "/home/ann/talk.wav/a/b.txt"))).
  { constructor; [constructor; [constructor|..]|];
      try (vm_compute; reflexivity).
    exists demo_model. split; vm_compute; reflexivity. }
  destruct (bad_output_location R) as [Hrun Hcause].
  assert (Hopen : os_open demo_env demo_fs
                    (Path_of (u "/home/ann/talk.wav/a/b.txt"))
                  = inl (NotADirectoryError
                           (Path_of (u "/home/ann/talk.wav/a/b.txt")))).
  { refine (proj1 (proj2 (Hcause 3 _ _ _ _ _)) _ (u "RIFF") _).
    - vm_compute. reflexivity.
    - vm_compute. reflexivity.
    - vm_compute. lia.
    - intros j Hj.
      destruct j as [|[|[|[|j]]]];
        [vm_compute; reflexivity .. | exfalso; lia].
    - intros j Hj.
      destruct j as [|[|[|j]]];
        [vm_compute; reflexivity .. | exfalso; lia].
    - vm_compute. lia.
    - vm_compute. reflexivity. }
  split; [exact Hopen|].
  exact (proj1 (proj2 (Hrun _ Hopen))).
Defined.

(** The three causes on the machine of the examples. *)
Example output_under_missing_directory :
  os_open demo_env demo_fs (Path_of (u "/nowhere/out.txt"))
  = inl (FileNotFoundError (Path_of (u "/nowhere/out.txt"))).
Proof. vm_compute. reflexivity. Qed.

Example output_under_a_file :
  os_open demo_env demo_fs (Path_of (u "/home/ann/talk.wav/out.txt"))
  = inl (NotADirectoryError (Path_of (u "/home/ann/talk.wav/out.txt"))).
Proof. vm_compute. reflexivity. Qed.

Example output_is_a_directory :
  os_open demo_env demo_fs (Path_of (u "/home/ann"))
  = inl (IsADirectoryError (Path_of (u "/home/ann"))).
Proof. vm_compute. reflexivity. Qed.

(** ** The home directory *)

Lemma expanduser_no_home (e : Env) (p : Path) :
  expanduser e p = inl NoHomeDirectory <->
  is_absolute p = false
  /\ exists first rest h,
       p_parts p = first :: rest
       /\ startswith first [TILDE] = true
       /\ os_expanduser e first = inr h
       /\ startswith h [TILDE] = true.
Proof.
  split.
  - unfold expanduser, is_absolute.
    destruct p as [[| |] [|first rest]]; cbn [p_root p_parts root_eqb negb];
      try discriminate.
    destruct (startswith first [TILDE]) eqn:E1; [|discriminate].
    destruct (os_expanduser e first) as [ex|h] eqn:E2.
    + intros H. injection H as ->.
      exfalso. unfold os_expanduser in E2.
      destruct (tl first); [discriminate|].
      destruct (fspath_error (n :: l)) eqn:Ef; [|discriminate].
      injection E2 as E2. subst e0.
      destruct (fspath_error_kind _ Ef); discriminate.
    + destruct (startswith h [TILDE]) eqn:E3; [|discriminate].
      intros _. split; [reflexivity|]. exists first, rest, h. auto.
  - intros (Ha & first & rest & h & Hp & Ht & Ho & Hh).
    rewrite (expanduser_tilde e p Ha Hp Ht), Ho, Hh. reflexivity.
Qed.

(** X13: an input whose first component starts with a tilde that
    expanduser cannot replace is not reported as a missing file: the
    RuntimeError of expanduser ends the run, exit status 1, before the
    file system is looked at, with nothing on standard output and the
    traceback on the error stream. This is the case exactly when the
    input is relative, its first component starts with a tilde and what
    os.path.expanduser gives for it still starts with a tilde, as it does
    for the name of a user the password database does not know, and for
    the bare tilde when HOME is not set and the current user has no
    entry. *)
Theorem unknown_home_directory (e : Env) (argv : list pystr)
    (f : filesystem) (args : Namespace) :
  version_too_new (version_info e) = false ->
  parse_args e (Some argv) = inr args ->
  (expanduser e (Path_of (ns_input args)) = inl NoHomeDirectory ->
   run e argv f
   = Halt (Uncaught NoHomeDirectory)
          (mkState f [EvVersionCheck; EvParseArgs argv;
                      EvStderr (Traceback NoHomeDirectory)])
   /\ exit_status (run e argv f) = 1)
  /\ (expanduser e (Path_of (ns_input args)) = inl NoHomeDirectory <->
      is_absolute (Path_of (ns_input args)) = false
      /\ exists first rest h,
           p_parts (Path_of (ns_input args)) = first :: rest
           /\ startswith first [TILDE] = true
           /\ os_expanduser e first = inr h
           /\ startswith h [TILDE] = true)
  /\ (forall user,
        user <> [] -> convertible user -> pwd_user e user = None ->
        os_expanduser e (TILDE :: user) = inr (TILDE :: user))
  /\ (environ_HOME e = None -> pwd_current e = None ->
      os_expanduser e [TILDE] = inr [TILDE]).
Proof.
  intros Hv Hp. split; [|split; [|split]].
  - intros Hx.
    rewrite (run_complete (@RunNoHome e argv f args NoHomeDirectory Hv Hp Hx)).
    split; reflexivity.
  - apply expanduser_no_home.
  - intros user Hne Hc Hu. unfold os_expanduser. cbn [tl].
    destruct user as [|c user]; [congruence|].
    unfold convertible in Hc. rewrite Hc, Hu. reflexivity.
  - intros Hh Hc. unfold os_expanduser. cbn [tl]. rewrite Hh, Hc.
    reflexivity.
Qed.

Lemma unknown_home_directory_witness :
  run demo_env [u "./~bob/talk.wav"] demo_fs
  = Halt (Uncaught NoHomeDirectory)
         (mkState demo_fs
                  [EvVersionCheck; EvParseArgs [u "./~bob/talk.wav"];
                   EvStderr (Traceback NoHomeDirectory)]).
Proof.
  refine (proj1 (proj1
            (@unknown_home_directory demo_env [u "./~bob/talk.wav"] demo_fs
               (mkNamespace (u "./~bob/talk.wav") (Str (u "small")) None None
                            (Str (u "transcribe")))
               _ _) _)); vm_compute; reflexivity.
Defined.

(** X14: the interpreter version is the first thing looked at: from 3.12
    on, whatever the arguments (a request for help, a wrong option), the
    run prints the version message on the error stream and exits with
    status 1 without parsing them; below 3.12 the arguments are parsed. *)
Theorem interpreter_version_guard (e : Env) (argv : list pystr)
    (f : filesystem) (major minor : nat) :
  version_info e = (major, minor) ->
  (3 < major \/ (major = 3 /\ 12 <= minor) ->
   run e argv f
   = Halt (SysExit 1)
          (mkState f [EvVersionCheck; EvStderr (Text msg_python_version)]))
  /\ (major < 3 \/ (major = 3 /\ minor < 12) ->
      exists rest,
        trace (final_state (run e argv f))
        = EvVersionCheck :: EvParseArgs argv :: rest).
Proof.
  intros Hver. split; intros Hcase.
  - apply run_complete. apply RunVersion. rewrite Hver.
    unfold version_too_new. destruct Hcase as [H|[-> H]].
    + apply Nat.ltb_lt in H. rewrite H. reflexivity.
    + apply Nat.leb_le in H. rewrite H. reflexivity.
  - assert (Hok : version_too_new (version_info e) = false).
    { rewrite Hver. unfold version_too_new. destruct Hcase as [H|[-> H]].
      - assert (H1 : (3 <? major) = false) by (apply Nat.ltb_ge; lia).
        assert (H2 : (major =? 3) = false) by (apply Nat.eqb_neq; lia).
        rewrite H1, H2. reflexivity.
      - assert (H1 : (12 <=? minor) = false) by (apply Nat.leb_gt; lia).
        rewrite H1. reflexivity. }
    run_cases e argv f; try congruence; tr_unfold; eexists; reflexivity.
Qed.

Lemma interpreter_version_guard_witness :
  run (with_version demo_env (3, 13)) [u "--help"] demo_fs
  = Halt (SysExit 1)
         (mkState demo_fs
                  [EvVersionCheck; EvStderr (Text msg_python_version)]).
Proof.
  refine (proj1 (@interpreter_version_guard (with_version demo_env (3, 13))
                   [u "--help"] demo_fs 3 13 eq_refl) _).
  right. split; [reflexivity | lia].
Defined.

(** The script is main on the arguments of the process when the
    model library can be imported; when it cannot, the script prints the
    installation hint on the error stream and exits with status 1 before
    the version is checked or anything else is done. *)
Lemma script_runs_main (e : Env) (f : filesystem) :
  run_script e f
  = if whisper_importable e then run e (sys_argv e) f
    else Halt (SysExit 1) (mkState f [EvStderr (Text msg_no_whisper)]).
Proof.
  unfold run_script, script. destruct (whisper_importable e); reflexivity.
Qed.

(** X15: a preview is at most 1001 characters long, its first 1000
    characters are the first 1000 of the text, and it is longer than the
    text by at most the one marker. *)
Theorem preview_is_bounded (text : pystr) :
  length (preview text) <= 1001
  /\ length (preview text)
     = Nat.min (length text) 1000
       + (if 1000 <? length text then 1 else 0)
  /\ firstn 1000 (preview text) = firstn 1000 text.
Proof.
  destruct (preview_cases text) as [(Hl & -> & Hn)|(Hl & ->)].
  - apply Nat.ltb_lt in Hl as Hb. rewrite Hb.
    rewrite length_app, Hn. cbn [length].
    repeat split; try lia.
    rewrite firstn_app, Hn, Nat.sub_diag.
    change (firstn 0 [ELLIPSIS]) with (@nil N).
    rewrite app_nil_r, firstn_firstn. reflexivity.
  - assert (Hb : (1000 <? length text) = false) by (apply Nat.ltb_ge; lia).
    rewrite Hb. repeat split; lia.
Qed.


(** ** Output given, text empty, text or path not encodable *)



(** X17: a run that returns has printed five things on standard output,
    in this order: the line that says the model is being loaded, the line
    that says the transcription starts, the line that names the output
    path, the header of the preview and the preview; a run that does not
    return has printed an initial part of them or the help, and never the
    line that names the output path. *)
Theorem standard_output_lines (e : Env) (argv : list pystr)
    (f : filesystem) :
  match run e argv f with
  | Ret _ s =>
      exists args out text,
        parse_args e (Some argv) = inr args
        /\ filter is_write (trace s) = [EvWriteText out text]
        /\ stdout_of (trace s)
           = [Text (msg_loading (ns_model args)); Text msg_transcribing;
              Text (msg_done out); Text msg_preview_header;
              Text (preview text)]
  | Halt _ s =>
      stdout_of (trace s) = [] \/ stdout_of (trace s) = [HelpMessage]
      \/ exists args,
           parse_args e (Some argv) = inr args
           /\ (stdout_of (trace s) = [Text (msg_loading (ns_model args))]
               \/ stdout_of (trace s)
                  = [Text (msg_loading (ns_model args));
                     Text msg_transcribing])
  end.
Proof.
  run_cases e argv f; tr_unfold;
    try (left; reflexivity);
    try (right; left; reflexivity);
    try (right; right; exists args'; split; [assumption|];
         (left; reflexivity) || (right; reflexivity)).
  exists args', out, (strip raw).
  destruct (which e (u "ffmpeg")); repeat split; assumption || reflexivity.
Qed.

Lemma lstrip_all_space (s : pystr) :
  forallb isspace s = true -> lstrip s = [].
Proof.
  induction s as [|c s IH]; simpl; [reflexivity|].
  intros H. apply andb_true_iff in H. destruct H as [-> H]. auto.
Qed.

Lemma strip_all_space (s : pystr) :
  forallb isspace s = true -> strip s = [].
Proof.
  intros H. unfold strip. rewrite (lstrip_all_space _ H). reflexivity.
Qed.

(** X18: when the text of the model is empty or white space only, and
    the output file can be opened and the line that names it printed, the
    run still returns with exit status 0: the output file is written
    empty and the preview is an empty line. *)
Theorem empty_transcription (e : Env) (argv : list pystr) (f : filesystem)
    (args : Namespace) (x : Path) (raw : pystr) (out : Path) :
  resolved e argv f args x raw out ->
  os_open e f out = inr tt ->
  printable e (msg_done out) = true ->
  forallb isspace raw = true ->
  exit_status (run e argv f) = 0
  /\ returned (run e argv f) = true
  /\ fs (final_state (run e argv f)) out = Some (File [])
  /\ filter is_write (trace (final_state (run e argv f)))
     = [EvWriteText out []]
  /\ last (stdout_of (trace (final_state (run e argv f)))) HelpMessage
     = Text [].
Proof.
  intros R Hw Hd Hsp.
  assert (Hu : utf8_encode (strip raw) = Some []).
  { rewrite (strip_all_space _ Hsp). reflexivity. }
  rewrite (run_complete (@RunDone e argv f args x raw out [] R Hw Hu Hd)).
  tr_unfold. rewrite (strip_all_space _ Hsp).
  split; [reflexivity|]. split; [reflexivity|].
  split; [apply update_same|].
  destruct (which e (u "ffmpeg")); split; reflexivity.
Qed.

Lemma empty_transcription_witness :
  fs (final_state (run (answering (u "  ")) [u "talk.wav"] demo_fs))
     (Path_of (u "/home/ann/talk_transcribe.txt"))
  = Some (File []).
Proof.
  refine (proj1 (proj2 (proj2
            (@empty_transcription (answering (u "  ")) [u "talk.wav"] demo_fs
               (mkNamespace (u "talk.wav") (Str (u "small")) None None
                            (Str (u "transcribe")))
               (Path_of (u "/home/ann/talk.wav")) (u "  ")
               (Path_of (u "/home/ann/talk_transcribe.txt")) _ _ _ _)))).
  - constructor; [constructor; [constructor|..]|];
      try (vm_compute; reflexivity).
    eexists. split; vm_compute; reflexivity.
  - vm_compute. reflexivity.
  - vm_compute. reflexivity.
  - vm_compute. reflexivity.
Defined.

Lemma utf8_char_none (c : N) :
  utf8_char c = None <-> unencodable c = true.
Proof.
  unfold utf8_char, unencodable.
  destruct (N.ltb_spec c 128), (N.ltb_spec c 2048), (N.ltb_spec c 65536),
    (N.ltb_spec c 1114112), (N.leb_spec 55296 c), (N.leb_spec c 57343),
    (N.leb_spec 1114112 c);
    simpl; split; intros; try discriminate; try reflexivity; lia.
Qed.

Lemma utf8_encode_none (s : pystr) :
  utf8_encode s = None <-> existsb unencodable s = true.
Proof.
  induction s as [|c s IH]; simpl; [split; discriminate|].
  destruct (utf8_char c) as [b|] eqn:Ec.
  - assert (Hc : unencodable c = false).
    { destruct (unencodable c) eqn:E; [|reflexivity].
      apply utf8_char_none in E. congruence. }
    rewrite Hc. simpl. rewrite <- IH.
    destruct (utf8_encode s); split; congruence.
  - apply utf8_char_none in Ec. rewrite Ec. simpl. split; reflexivity.
Qed.

(** X19: a run returns only if the trimmed text has a UTF-8 encoding.
    When the output file can be opened and the trimmed text holds a
    surrogate (or a number that is no code point), the run ends with
    UnicodeEncodeError, exit status 1, after the output file has been
    opened: the file is left empty, whatever it held before, the success
    line is not printed and the error stream gets the traceback. *)
Theorem unencodable_text (e : Env) (argv : list pystr) (f : filesystem)
    (args : Namespace) (x : Path) (raw : pystr) (out : Path) :
  resolved e argv f args x raw out ->
  (returned (run e argv f) = true ->
   existsb unencodable (strip raw) = false)
  /\ (os_open e f out = inr tt ->
      existsb unencodable (strip raw) = true ->
      outcome (run e argv f) = Some (Uncaught UnicodeEncodeError)
      /\ exit_status (run e argv f) = 1
      /\ fs (final_state (run e argv f)) out = Some (File [])
      /\ (forall q, q <> out -> fs (final_state (run e argv f)) q = f q)
      /\ stdout_of (trace (final_state (run e argv f)))
         = [Text (msg_loading (ns_model args)); Text msg_transcribing]
      /\ stderr_of (trace (final_state (run e argv f)))
         = [Traceback UnicodeEncodeError]).
Proof.
  intros R. split.
  - intros Hret.
    destruct (run e argv f) as [[] s|h s] eqn:Hrun; [|discriminate].
    destruct (run_returns _ _ _ Hrun)
      as (args' & x' & raw' & out' & content & R' & _ & Hu & _ & _).
    destruct R as [[[Hv Hp Hi] Hf Hl (m & Hm & Ht)] Ho].
    destruct R' as [[[Hv' Hp' Hi'] Hf' Hl' (m' & Hm' & Ht')] Ho'].
    assert (args' = args) by congruence. subst args'.
    assert (x' = x) by congruence. subst x'.
    assert (m' = m) by congruence. subst m'.
    assert (raw' = raw) by congruence. subst raw'.
    destruct (existsb unencodable (strip raw)) eqn:E; [|reflexivity].
    apply utf8_encode_none in E. congruence.
  - intros Hw Hyes. apply utf8_encode_none in Hyes.
    rewrite (run_complete (@RunEncodeFails e argv f args x raw out R Hw Hyes)).
    tr_unfold. cbn [outcome]. repeat split; auto.
    + apply update_same.
    + intros q Hq. apply update_other. exact Hq.
Qed.

Lemma unencodable_text_witness :
  fs (final_state
        (run (answering [97; 55296]%N) [u "talk.wav"; u "-o"; u "talk.wav"]
             demo_fs))
     (Path_of (u "/home/ann/talk.wav"))
  = Some (File []).
Proof.
  refine (proj1 (proj2 (proj2
            (proj2 (@unencodable_text (answering [97; 55296]%N)
                      [u "talk.wav"; u "-o"; u "talk.wav"] demo_fs
                      (mkNamespace (u "talk.wav") (Str (u "small"))
                                   (Some (Str (u "talk.wav"))) None
                                   (Str (u "transcribe")))
                      (Path_of (u "/home/ann/talk.wav")) [97; 55296]%N
                      (Path_of (u "/home/ann/talk.wav")) _) _ _)))).
  - constructor; [constructor; [constructor|..]|];
      try (vm_compute; reflexivity).
    eexists. split; vm_compute; reflexivity.
  - vm_compute. reflexivity.
  - vm_compute. reflexivity.
Defined.

Lemma printable_strict (e : Env) (s : pystr) :
  stdout_errors e = Strict ->
  printable e s = negb (existsb unencodable s).
Proof.
  intros Hs. unfold printable. rewrite Hs.
  induction s as [|c s IH]; [reflexivity|].
  cbn [forallb existsb]. rewrite IH, negb_orb. f_equal.
  unfold stream_accepts.
  destruct (utf8_char c) eqn:E.
  - destruct (unencodable c) eqn:U; [|reflexivity].
    apply utf8_char_none in U. congruence.
  - apply utf8_char_none in E. rewrite E. reflexivity.
Qed.

Lemma printable_replacing (e : Env) (s : pystr) :
  stdout_errors e = Replacing -> printable e s = true.
Proof.
  intros Hs. unfold printable. rewrite Hs.
  induction s as [|c s IH]; [reflexivity|].
  cbn [forallb]. rewrite IH. unfold stream_accepts.
  destruct (utf8_char c); reflexivity.
Qed.

(** X23: the line that names the output path is printed after the file
    is written. When it cannot be printed, the run ends with
    UnicodeEncodeError, exit status 1, with the transcript in the output
    file, without the preview and without the ffmpeg check. On a standard
    output that encodes strictly this happens exactly when the string of
    the output path holds a surrogate; on one that replaces what it
    cannot encode it never happens. *)
Theorem success_line_unprintable (e : Env) (argv : list pystr)
    (f : filesystem) (args : Namespace) (x : Path) (raw : pystr)
    (out : Path) (content : bytes) :
  resolved e argv f args x raw out ->
  os_open e f out = inr tt ->
  utf8_encode (strip raw) = Some content ->
  (printable e (msg_done out) = false ->
   outcome (run e argv f) = Some (Uncaught UnicodeEncodeError)
   /\ exit_status (run e argv f) = 1
   /\ fs (final_state (run e argv f)) out = Some (File content)
   /\ stdout_of (trace (final_state (run e argv f)))
      = [Text (msg_loading (ns_model args)); Text msg_transcribing]
   /\ stderr_of (trace (final_state (run e argv f)))
      = [Traceback UnicodeEncodeError]
   /\ filter is_which (trace (final_state (run e argv f))) = [])
  /\ (stdout_errors e = Strict ->
      (printable e (msg_done out) = false
       <-> existsb unencodable (path_str out) = true))
  /\ (stdout_errors e = Replacing -> printable e (msg_done out) = true).
Proof.
  intros R Hw Hu. split; [|split].
  - intros Hd.
    rewrite (run_complete
               (@RunUnreported e argv f args x raw out content R Hw Hu Hd)).
    tr_unfold. cbn [outcome]. repeat split; auto. apply update_same.
  - intros Hs. rewrite (printable_strict _ _ Hs).
    unfold msg_done. rewrite !existsb_app.
    change (existsb unencodable [CHECK_MARK]) with false.
    change (existsb unencodable (u " Done! Transcript saved to: "))
      with false.
    cbn [orb]. destruct (existsb unencodable (path_str out));
      split; intros; try reflexivity; discriminate.
  - intros Hs. apply (printable_replacing _ _ Hs).
Qed.

Lemma success_line_unprintable_witness :
  exit_status
    (run demo_env [u "talk.wav"; u "-o"; [56448%N] ++ u ".txt"] demo_fs) = 1
  /\ fs (final_state
           (run demo_env [u "talk.wav"; u "-o"; [56448%N] ++ u ".txt"]
                demo_fs))
        (mkPath OneSlash [u "home"; u "ann"; [56448%N] ++ u ".txt"])
     = Some (File (u "hello world")).
Proof.
  assert (H := proj1
            (@success_line_unprintable demo_env
               [u "talk.wav"; u "-o"; [56448%N] ++ u ".txt"] demo_fs
               (mkNamespace (u "talk.wav") (Str (u "small"))
                            (Some (Str ([56448%N] ++ u ".txt"))) None
                            (Str (u "transcribe")))
               (Path_of (u "/home/ann/talk.wav")) demo_text
               (mkPath OneSlash [u "home"; u "ann"; [56448%N] ++ u ".txt"])
               (u "hello world")
               ltac:(constructor; [constructor; [constructor|..]|];
                     try (vm_compute; reflexivity);
                     eexists; split; vm_compute; reflexivity)
               ltac:(vm_compute; reflexivity)
               ltac:(vm_compute; reflexivity))
            ltac:(vm_compute; reflexivity)).
  split; [exact (proj1 (proj2 H)) | exact (proj1 (proj2 (proj2 H)))].
Defined.

(** ** More on the command line *)

(** X20: after a double dash the next argument is the input whatever it
    looks like, so a file whose name starts with a dash can be given; a
    second argument after it is refused, as any second positional is. *)
Theorem double_dash_input (e : Env) (x y : pystr) :
  parse_args e (Some [u "--"; x])
  = inr (mkNamespace x (Str (u "small")) None None (Str (u "transcribe")))
  /\ parse_args e (Some [u "--"; x; y])
     = inl (UsageError (UnrecognizedArguments [y])).
Proof. split; reflexivity. Qed.

(** X21: the parser takes one input only: of two arguments that do not
    look like options the first is the input and the second is refused as
    unrecognised, with exit status 2. *)
Theorem one_input_only (e : Env) (a b : pystr) :
  plain_argument (unicode_decimal e) a ->
  plain_argument (unicode_decimal e) b ->
  parse_args e (Some [a; b])
  = inl (UsageError (UnrecognizedArguments [b]))
  /\ forall f,
       version_too_new (version_info e) = false ->
       exit_status (run e [a; b] f) = 2.
Proof.
  intros Ha Hb.
  pose proof (plain_not_dashdash Ha) as Da.
  pose proof (plain_not_dashdash Hb) as Db.
  unfold plain_argument in Ha, Hb.
  assert (Hp : parse_args e (Some [a; b])
               = inl (UsageError (UnrecognizedArguments [b]))).
  { unfold parse_args; cbn [classify]. rewrite Da, Db, Ha, Hb. reflexivity. }
  split; [exact Hp|].
  intros f Hv.
  rewrite (run_complete (@RunUsage e [a; b] f _ Hv Hp)). reflexivity.
Qed.

Lemma one_input_only_witness :
  parse_args demo_env (Some [u "talk.wav"; u "other.wav"])
  = inl (UsageError (UnrecognizedArguments [u "other.wav"])).
Proof.
  refine (proj1 (@one_input_only demo_env (u "talk.wav") (u "other.wav")
                   _ _)); vm_compute; reflexivity.
Defined.

(** X22: an option given twice keeps the last value: of two model names
    the second is stored, and of two valid tasks the second. *)
Theorem last_value_wins (e : Env) (input m1 m2 t1 t2 : pystr) :
  plain_argument (unicode_decimal e) input ->
  plain_argument (unicode_decimal e) m1 ->
  plain_argument (unicode_decimal e) m2 ->
  In t1 task_choices ->
  In t2 task_choices ->
  parse_args e (Some [input; u "-m"; m1; u "--task"; t1;
                      u "--model"; m2; u "--task"; t2])
  = inr (mkNamespace input (Str m2) None None (Str t2)).
Proof.
  intros Hi H1 H2 T1 T2.
  pose proof (plain_not_dashdash Hi) as Di.
  pose proof (plain_not_dashdash H1) as D1.
  pose proof (plain_not_dashdash H2) as D2.
  unfold plain_argument in Hi, H1, H2.
  destruct T1 as [<-|[<-|[]]]; destruct T2 as [<-|[<-|[]]];
    unfold parse_args; cbn [classify];
    rewrite ?Di, ?D1, ?D2, ?Hi, ?H1, ?H2;
    repeat (simpl; unfold take_store, get_values; rewrite ?D1, ?D2);
    reflexivity.
Qed.

Lemma last_value_wins_witness :
  parse_args demo_env
    (Some [u "talk.wav"; u "-m"; u "tiny"; u "--task"; u "translate";
           u "--model"; u "base"; u "--task"; u "transcribe"])
  = inr (mkNamespace (u "talk.wav") (Str (u "base")) None None
                     (Str (u "transcribe"))).
Proof.
  apply (@last_value_wins demo_env (u "talk.wav") (u "tiny") (u "base")
           (u "translate") (u "transcribe"));
    try (vm_compute; reflexivity).
  - right; left; reflexivity.
  - left; reflexivity.
Defined.

(** X24: a double dash attached to an option is not a value: argparse
    stores the empty list for it and checks no choice. So "--task=--" is
    accepted with the empty list as the task, "-o--" gives the empty list
    as the output, which resolve_output_path takes as no output given, and
    "-m--" gives it as the model name; as a separate argument the double
    dash is no value at all and the option is refused for want of one.
    With the empty list as the task the default output is named after the
    stem of the input with "_[].txt" appended. *)
Theorem attached_double_dash (e : Env) (input : pystr) :
  plain_argument (unicode_decimal e) input ->
  parse_args e (Some [input; u "--task=--"])
  = inr (mkNamespace input (Str (u "small")) None None EmptyList)
  /\ parse_args e (Some [input; u "-o--"])
     = inr (mkNamespace input (Str (u "small")) (Some EmptyList) None
                        (Str (u "transcribe")))
  /\ parse_args e (Some [input; u "-m--"])
     = inr (mkNamespace input EmptyList None None (Str (u "transcribe")))
  /\ parse_args e (Some [input; u "--task"; u "--"])
     = inl (UsageError (ArgumentError (Store STask) ExpectedOneArgument))
  /\ (forall x task,
        resolve_output_path e x (Some EmptyList) task
        = resolve_output_path e x None task)
  /\ (forall x,
        resolve_output_path e x None EmptyList
        = with_name x (stem x ++ u "_[].txt")).
Proof.
  intros Hi. pose proof (plain_not_dashdash Hi) as Di.
  unfold plain_argument in Hi.
  repeat split; unfold parse_args; cbn [classify]; rewrite ?Di, ?Hi;
    reflexivity.
Qed.

Lemma attached_double_dash_witness :
  parse_args demo_env (Some [u "talk.wav"; u "--task=--"])
  = inr (mkNamespace (u "talk.wav") (Str (u "small")) None None EmptyList).
Proof.
  refine (proj1 (@attached_double_dash demo_env (u "talk.wav") _)).
  vm_compute. reflexivity.
Defined.

